(** * PawPal+ scheduling core: a shallow embedding of [src/pawpal_system.py]

    Python objects are modelled as references ([nat]) into a heap of
    [Task] values, so that [Schedule.scheduled_tasks] and
    [Schedule.unscheduled_tasks] hold the same references as the owner's
    pets.  A [datetime.time] with whole minutes is its minute of the day
    in [0, 1440); adding a [timedelta] through [datetime.combine] and
    taking [.time()] is addition modulo 1440 ([add_minutes]) whenever the
    [datetime] stays within its range.  Outside that range Python raises
    [OverflowError]: the functions of section [Checked] (suffix
    [_checked]) model this and return [None] for the exception, and the
    lemmas [*_checked_some] show that whenever they return a value, it is
    the value of the total functions.  [utilization_percentage] is kept as
    the exact rational; the binary64 float the code stores is
    [generate_utilization] (part "Binary64" below). *)

From Stdlib Require Import List ZArith String Ascii QArith Lia Bool.
From Stdlib Require Import Sorting.Sorted Permutation.
From Stdlib Require Import QArith.Qpower Floats.SpecFloat.
Import ListNotations.
Open Scope Z_scope.

(** ** Enumerations *)

Inductive Priority := LOW | MEDIUM | HIGH | CRITICAL.

(** [Priority.value] *)
Definition priority_value (p : Priority) : Z :=
  match p with LOW => 1 | MEDIUM => 2 | HIGH => 3 | CRITICAL => 4 end.

(** [Priority.name] *)
Definition priority_name (p : Priority) : string :=
  match p with
  | LOW => "LOW" | MEDIUM => "MEDIUM" | HIGH => "HIGH" | CRITICAL => "CRITICAL"
  end.

Inductive TaskCategory := WALK | FEEDING | MEDICATION | GROOMING | ENRICHMENT.

Inductive TaskFrequency := ONCE | DAILY | WEEKLY | MONTHLY.

Definition priority_eqb (a b : Priority) : bool := Z.eqb (priority_value a) (priority_value b).

Definition category_eqb (a b : TaskCategory) : bool :=
  match a, b with
  | WALK, WALK | FEEDING, FEEDING | MEDICATION, MEDICATION
  | GROOMING, GROOMING | ENRICHMENT, ENRICHMENT => true
  | _, _ => false
  end.

Definition frequency_eqb (a b : TaskFrequency) : bool :=
  match a, b with
  | ONCE, ONCE | DAILY, DAILY | WEEKLY, WEEKLY | MONTHLY, MONTHLY => true
  | _, _ => false
  end.

(** ** Domain models *)

Record Task := mkTask {
  title : string;
  duration_minutes : Z;
  priority : Priority;
  category : TaskCategory;
  description : string;
  frequency : TaskFrequency;
  is_completed : bool
}.

(** [Task(...)] with [__post_init__]: a missing frequency becomes [ONCE].
    No other field is checked. *)
Definition Task_init (title : string) (duration_minutes : Z) (priority : Priority)
    (category : TaskCategory) (description : string)
    (frequency : option TaskFrequency) (is_completed : bool) : Task :=
  mkTask title duration_minutes priority category description
    (match frequency with None => ONCE | Some f => f end) is_completed.

(** The dataclass-generated [Task.__eq__]: field-by-field equality. *)
Definition task_eqb (a b : Task) : bool :=
  String.eqb (title a) (title b) && Z.eqb (duration_minutes a) (duration_minutes b)
  && priority_eqb (priority a) (priority b) && category_eqb (category a) (category b)
  && String.eqb (description a) (description b)
  && frequency_eqb (frequency a) (frequency b) && Bool.eqb (is_completed a) (is_completed b).

(** [Task.get_priority_score] *)
Definition get_priority_score (t : Task) : Z := priority_value (priority t).

(** A task object is a reference into the heap of tasks. *)
Definition Ref := nat.
Definition Heap := Ref -> Task.

Record Pet := mkPet {
  pet_name : string;
  species : string;
  pet_tasks : list Ref
}.

Record Owner := mkOwner {
  owner_name : string;
  available_time_minutes : Z;
  pets : list Pet
}.

(** [Owner.get_all_tasks]: pet order, then task order within each pet. *)
Definition get_all_tasks (o : Owner) : list Ref :=
  fold_left (fun all_tasks pet => all_tasks ++ pet_tasks pet) (pets o) [].

(** ** Scheduling models *)

(** A [datetime.time] as its minute of the day. *)
Definition Time := Z.
Definition minutes_per_day : Z := 1440.

(** [datetime.combine(today, t) + timedelta(minutes=d)] followed by [.time()]. *)
Definition add_minutes (t : Time) (d : Z) : Time := (t + d) mod minutes_per_day.

Record ScheduledTask := mkScheduledTask {
  st_task : Ref;
  scheduled_time : Time;
  order_index : Z;
  reasoning : string
}.

Section ScheduleModel.
Variable heap : Heap.

(** [ScheduledTask.get_end_time] *)
Definition get_end_time (s : ScheduledTask) : Time :=
  add_minutes (scheduled_time s) (duration_minutes (heap (st_task s))).

(** [ScheduledTask.conflicts_with] *)
Definition conflicts_with (self other : ScheduledTask) : bool :=
  negb ((get_end_time self <=? scheduled_time other)
        || (get_end_time other <=? scheduled_time self)).

(** [Schedule.validate]: every pair [i < j] is checked; the first
    conflict returns [False]. *)
Fixpoint validate (scheduled_tasks : list ScheduledTask) : bool :=
  match scheduled_tasks with
  | [] => true
  | task1 :: rest =>
      forallb (fun task2 => negb (conflicts_with task1 task2)) rest && validate rest
  end.

End ScheduleModel.

Record Date := mkDate { year : Z; month : Z; day : Z }.

Record Schedule := mkSchedule {
  sdate : Date;
  scheduled_tasks : list ScheduledTask;
  unscheduled_tasks : list Ref;
  total_time_minutes : Z;
  utilization_percentage : Q
}.

(** Python's [round(x, 2)] read on the exact rational [x]: round half to
    even at the second decimal. *)
Definition round2 (x : Q) : Q :=
  let n := Qnum x * 100 in
  let d := Zpos (Qden x) in
  let fl := n / d in
  let r := n mod d in
  let k := if 2 * r <? d then fl
           else if d <? 2 * r then fl + 1
           else if Z.even fl then fl else fl + 1 in
  Qmake k 100.

Section ScheduleMetrics.
Variable heap : Heap.

(** [Schedule.calculate_total_time] (updates [total_time_minutes]). *)
Definition calculate_total_time (s : Schedule) : Schedule :=
  let total := fold_left (fun acc st => acc + duration_minutes (heap (st_task st)))
                         (scheduled_tasks s) 0 in
  mkSchedule (sdate s) (scheduled_tasks s) (unscheduled_tasks s) total
             (utilization_percentage s).

(** [Schedule.calculate_utilization] (updates [utilization_percentage]).
    The float expression [(total / available_time) * 100] is read on exact
    rationals; it coincides with the IEEE result whenever every
    intermediate value is representable (e.g. [40/40*100], [0/b*100]). *)
Definition calculate_utilization (s : Schedule) (available_time : Z) : Schedule :=
  if available_time =? 0 then
    mkSchedule (sdate s) (scheduled_tasks s) (unscheduled_tasks s)
               (total_time_minutes s) 0%Q
  else
    let utilization := ((inject_Z (total_time_minutes s) / inject_Z available_time) * 100)%Q in
    mkSchedule (sdate s) (scheduled_tasks s) (unscheduled_tasks s)
               (total_time_minutes s) (round2 utilization).

End ScheduleMetrics.

(** ** Python built-ins used by the scheduler *)

(** [sorted(xs, key=key, reverse=True)]: a stable sort by descending key
    (elements with equal keys keep their original order). *)
Fixpoint insert_desc {A} (key : A -> Z) (x : A) (l : list A) : list A :=
  match l with
  | [] => [x]
  | y :: l' => if key x <=? key y then y :: insert_desc key x l' else x :: l
  end.

Definition sorted_desc {A} (key : A -> Z) (xs : list A) : list A :=
  fold_left (fun acc x => insert_desc key x acc) xs [].

(** [str.join]: [String.concat sep parts]. *)

(** ** The priority-greedy scheduler *)

Record LoopState := mkLoopState {
  available_tasks : list Ref;
  ls_scheduled : list ScheduledTask;
  ls_unscheduled : list Ref;
  current_time : Time;
  remaining_time : Z;
  ls_order_index : Z
}.

(** [PriorityGreedyScheduler._generate_reasoning] *)
Definition generate_reasoning (task : Task) (score : Z) (alternatives : list Task) : string :=
  let r1 := match priority task with
            | CRITICAL => "CRITICAL priority - must be completed"
            | HIGH => "HIGH priority task"
            | MEDIUM => "MEDIUM priority task"
            | LOW => "LOW priority task"
            end%string in
  let r2 := match category task with
            | MEDICATION => ["medication should not be delayed"]
            | FEEDING => ["feeding is essential care"]
            | WALK => ["exercise is important for pet health"]
            | _ => []
            end%string in
  let r3 := if 1 <? Z.of_nat (List.length alternatives) then
              let other_priorities :=
                map (fun t => priority_name (priority t)) (firstn 2 (skipn 1 alternatives)) in
              match other_priorities with
              | [] => []
              | _ => [("chosen over " ++ String.concat ", " other_priorities
                        ++ " priority tasks")%string]
              end
            else [] in
  String.append (String.concat ". " (r1 :: app r2 r3)) ".".

Section Scheduler.
Variable heap : Heap.

(** [Scheduler._calculate_task_score]: the priority ordinal. *)
Definition calculate_task_score (task : Task) (current_time : Time) : Z :=
  get_priority_score task.

(** [PriorityGreedyScheduler._select_next_task]: first strict maximum,
    starting from [best_score = -1]. *)
Fixpoint select_scan (current_time : Time) (best_task : option Ref) (best_score : Z)
    (l : list Ref) : option Ref :=
  match l with
  | [] => best_task
  | task :: l' =>
      let score := calculate_task_score (heap task) current_time in
      if best_score <? score then select_scan current_time (Some task) score l'
      else select_scan current_time best_task best_score l'
  end.

Definition select_next_task (available_tasks : list Ref) (current_time : Time) : option Ref :=
  match available_tasks with
  | [] => None
  | _ => select_scan current_time None (-1) available_tasks
  end.

(** [PriorityGreedyScheduler._can_fit_task] *)
Definition can_fit_task (task : Task) (current_time : Time) (remaining_time : Z) : bool :=
  duration_minutes task <=? remaining_time.

(** [list.remove(x)]: drops the first element [e] with [e is x or e == x].
    (Python raises [ValueError] when there is none; the scheduler only
    removes elements it has just taken from the list.) *)
Fixpoint list_remove (x : Ref) (l : list Ref) : list Ref :=
  match l with
  | [] => []
  | e :: l' => if Nat.eqb e x || task_eqb (heap e) (heap x) then l' else e :: list_remove x l'
  end.

(** The method [_generate_reasoning] is overridable; the loop is written
    for any reasoning method [gen_reasoning]. *)
Variable gen_reasoning : Task -> Z -> list Task -> string.

(** One iteration of the [while] body of [generate_schedule];
    [None] is the [break]. *)
Definition loop_step (s : LoopState) : option LoopState :=
  match select_next_task (available_tasks s) (current_time s) with
  | None => None
  | Some next_task =>
      let t := heap next_task in
      if negb (can_fit_task t (current_time s) (remaining_time s)) then
        Some (mkLoopState (list_remove next_task (available_tasks s)) (ls_scheduled s)
                (ls_unscheduled s ++ [next_task]) (current_time s) (remaining_time s)
                (ls_order_index s))
      else
        let score := calculate_task_score t (current_time s) in
        let r := gen_reasoning t score (map heap (firstn 3 (available_tasks s))) in
        let scheduled_task := mkScheduledTask next_task (current_time s) (ls_order_index s) r in
        Some (mkLoopState (list_remove next_task (available_tasks s))
                (ls_scheduled s ++ [scheduled_task]) (ls_unscheduled s)
                (add_minutes (current_time s) (duration_minutes t))
                (remaining_time s - duration_minutes t) (ls_order_index s + 1))
  end.

(** [while remaining_time > 0 and available_tasks: ...]; every iteration
    removes one candidate, so [length available_tasks] iterations suffice
    (see [sched_loop_fuel_enough]). *)
Fixpoint sched_loop (fuel : nat) (s : LoopState) : LoopState :=
  match fuel with
  | O => s
  | S fuel' =>
      if (0 <? remaining_time s) && negb (match available_tasks s with [] => true | _ => false end)
      then match loop_step s with
           | None => s
           | Some s' => sched_loop fuel' s'
           end
      else s
  end.

Definition priority_key (r : Ref) : Z := get_priority_score (heap r).

(** [PriorityGreedyScheduler.generate_schedule] *)
Definition generate_schedule_with (owner : Owner) (date : Date) : Schedule :=
  let all_tasks := get_all_tasks owner in
  let available := sorted_desc priority_key all_tasks in
  let schedule := mkSchedule date [] [] 0 0%Q in
  match available with
  | [] => schedule
  | _ =>
    if available_time_minutes owner <=? 0 then
      let schedule := mkSchedule date [] available 0 0%Q in
      calculate_utilization (calculate_total_time heap schedule) (available_time_minutes owner)
    else
      let s0 := mkLoopState available [] [] (6 * 60) (available_time_minutes owner) 0 in
      let s := sched_loop (List.length available) s0 in
      let schedule := mkSchedule date (ls_scheduled s) (ls_unscheduled s ++ available_tasks s) 0 0%Q in
      calculate_utilization (calculate_total_time heap schedule) (available_time_minutes owner)
  end.

End Scheduler.

(** The shipped scheduler, with its own reasoning method. *)
Definition generate_schedule (heap : Heap) (owner : Owner) (date : Date) : Schedule :=
  generate_schedule_with heap (generate_reasoning) owner date.

(** ** The [datetime] range

    [datetime.combine(datetime.today(), t) + timedelta(minutes=d)] raises
    [OverflowError] when the result leaves [datetime.min] .. [datetime.max],
    i.e. the days with ordinals 1 (0001-01-01) to [max_ordinal]
    (9999-12-31); a [timedelta] of more than 999999999 days, which raises
    as well, always leaves that range.  [today] is the ordinal of the date
    [datetime.today()] returns; one run reads the same date at every call.
    Minutes are counted from 0001-01-01 00:00. *)
Definition max_ordinal : Z := 3652059.

Definition add_minutes_checked (today : Z) (t : Time) (d : Z) : option Time :=
  let m := (today - 1) * minutes_per_day + t + d in
  if (0 <=? m) && (m <? max_ordinal * minutes_per_day) then Some (m mod minutes_per_day)
  else None.

Section Checked.
Variable today : Z.
Variable heap : Heap.

(** [ScheduledTask.get_end_time] *)
Definition get_end_time_checked (s : ScheduledTask) : option Time :=
  add_minutes_checked today (scheduled_time s) (duration_minutes (heap (st_task s))).

(** [ScheduledTask.conflicts_with]: [or] evaluates [other.get_end_time()]
    only when the first comparison is false. *)
Definition conflicts_with_checked (self other : ScheduledTask) : option bool :=
  match get_end_time_checked self with
  | None => None
  | Some end1 =>
      if end1 <=? scheduled_time other then Some false
      else match get_end_time_checked other with
           | None => None
           | Some end2 => Some (negb (end2 <=? scheduled_time self))
           end
  end.

(** The inner loop of [Schedule.validate] for one [task1]: [Some true]
    when no later task conflicts with it. *)
Fixpoint validate_pairs (task1 : ScheduledTask) (rest : list ScheduledTask) : option bool :=
  match rest with
  | [] => Some true
  | task2 :: rest' =>
      match conflicts_with_checked task1 task2 with
      | None => None
      | Some true => Some false
      | Some false => validate_pairs task1 rest'
      end
  end.

(** [Schedule.validate] *)
Fixpoint validate_checked (scheduled_tasks : list ScheduledTask) : option bool :=
  match scheduled_tasks with
  | [] => Some true
  | task1 :: rest =>
      match validate_pairs task1 rest with
      | Some true => validate_checked rest
      | r => r
      end
  end.

Variable gen_reasoning : Task -> Z -> list Task -> string.

(** One iteration of the [while] body: the outer [None] is the
    [OverflowError] of the cursor advance, [Some None] the [break]. *)
Definition loop_step_checked (s : LoopState) : option (option LoopState) :=
  match select_next_task heap (available_tasks s) (current_time s) with
  | None => Some None
  | Some next_task =>
      let t := heap next_task in
      if negb (can_fit_task t (current_time s) (remaining_time s)) then
        Some (Some (mkLoopState (list_remove heap next_task (available_tasks s)) (ls_scheduled s)
                      (ls_unscheduled s ++ [next_task]) (current_time s) (remaining_time s)
                      (ls_order_index s)))
      else
        let score := calculate_task_score t (current_time s) in
        let r := gen_reasoning t score (map heap (firstn 3 (available_tasks s))) in
        let scheduled_task := mkScheduledTask next_task (current_time s) (ls_order_index s) r in
        match add_minutes_checked today (current_time s) (duration_minutes t) with
        | None => None
        | Some c =>
            Some (Some (mkLoopState (list_remove heap next_task (available_tasks s))
                          (ls_scheduled s ++ [scheduled_task]) (ls_unscheduled s) c
                          (remaining_time s - duration_minutes t) (ls_order_index s + 1)))
        end
  end.

Fixpoint sched_loop_checked (fuel : nat) (s : LoopState) : option LoopState :=
  match fuel with
  | O => Some s
  | S fuel' =>
      if (0 <? remaining_time s) && negb (match available_tasks s with [] => true | _ => false end)
      then match loop_step_checked s with
           | None => None
           | Some None => Some s
           | Some (Some s') => sched_loop_checked fuel' s'
           end
      else Some s
  end.

(** [PriorityGreedyScheduler.generate_schedule]; [None] is the
    [OverflowError]. *)
Definition generate_schedule_checked_with (owner : Owner) (date : Date) : option Schedule :=
  let all_tasks := get_all_tasks owner in
  let available := sorted_desc (priority_key heap) all_tasks in
  let schedule := mkSchedule date [] [] 0 0%Q in
  match available with
  | [] => Some schedule
  | _ =>
    if available_time_minutes owner <=? 0 then
      let schedule := mkSchedule date [] available 0 0%Q in
      Some (calculate_utilization (calculate_total_time heap schedule) (available_time_minutes owner))
    else
      let s0 := mkLoopState available [] [] (6 * 60) (available_time_minutes owner) 0 in
      match sched_loop_checked (List.length available) s0 with
      | None => None
      | Some s =>
          let schedule := mkSchedule date (ls_scheduled s) (ls_unscheduled s ++ available_tasks s) 0 0%Q in
          Some (calculate_utilization (calculate_total_time heap schedule) (available_time_minutes owner))
      end
  end.

End Checked.

Definition generate_schedule_checked (today : Z) (heap : Heap) (owner : Owner) (date : Date)
    : option Schedule :=
  generate_schedule_checked_with today heap generate_reasoning owner date.

(** The ordinal of 2026-10-16 ([date(2026, 10, 16).toordinal()]). *)
Definition today0 : Z := 739905.

(** ** Concrete owners used by the examples below *)

Definition heap_of (tasks : list Task) : Heap :=
  fun r => nth r tasks (Task_init "" 0 LOW WALK "" None false).

Definition date0 : Date := mkDate 2026 10 16.

(** Budget 40; Feed(10, CRITICAL), Walk(30, HIGH), Groom(45, LOW). *)
Definition tasks_budget40 : list Task :=
  [Task_init "Feed" 10 CRITICAL FEEDING "" None false;
   Task_init "Walk" 30 HIGH WALK "" None false;
   Task_init "Groom" 45 LOW GROOMING "" None false].

Definition owner_budget40 : Owner :=
  mkOwner "Jordan" 40 [mkPet "Mochi" "dog" [0%nat; 2%nat]; mkPet "Whiskers" "cat" [1%nat]].

(** Budget 1500; three tasks of 600, 600 and 300 minutes: the cursor
    passes midnight. *)
Definition tasks_long_day : list Task :=
  [Task_init "Sit" 600 CRITICAL ENRICHMENT "" None false;
   Task_init "Hike" 600 HIGH WALK "" None false;
   Task_init "Spa" 300 MEDIUM GROOMING "" None false].

Definition owner_long_day : Owner :=
  mkOwner "Sam" 1500 [mkPet "Rex" "dog" [0%nat; 1%nat; 2%nat]].

(** Budget 1441; tasks of 600, 600 and 241 minutes: the third runs
    02:00-06:01 and overlaps the first. *)
Definition tasks_1441 : list Task :=
  [Task_init "Sit" 600 CRITICAL ENRICHMENT "" None false;
   Task_init "Hike" 600 HIGH WALK "" None false;
   Task_init "Spa" 241 MEDIUM GROOMING "" None false].

Definition owner_1441 : Owner :=
  mkOwner "Sam" 1441 [mkPet "Rex" "dog" [0%nat; 1%nat; 2%nat]].

(** Budget 10; durations -300, -30 and 340: the cursor moves back to
    00:30 and the third task runs 00:30-06:10. *)
Definition tasks_backwards : list Task :=
  [Task_init "Sit" (-300) CRITICAL ENRICHMENT "" None false;
   Task_init "Hike" (-30) HIGH WALK "" None false;
   Task_init "Spa" 340 MEDIUM GROOMING "" None false].

Definition owner_backwards : Owner :=
  mkOwner "Sam" 10 [mkPet "Rex" "dog" [0%nat; 1%nat; 2%nat]].

(** Two hand-built scheduled tasks: A at 06:00 for 10 minutes, and H at
    07:00 lasting [max_ordinal * 1440] minutes, whose end is beyond
    [datetime.max] whatever the date. *)
Definition tasks_overflow : list Task :=
  [Task_init "A" 10 HIGH WALK "" None false;
   Task_init "H" (max_ordinal * minutes_per_day) LOW ENRICHMENT "" None false].

Definition st_a : ScheduledTask := mkScheduledTask 0%nat (6 * 60) 0 "".
Definition st_h : ScheduledTask := mkScheduledTask 1%nat (7 * 60) 1 "".

(** Budget 0 with the three tasks of [tasks_budget40]. *)
Definition owner_no_time : Owner :=
  mkOwner "Busy" 0 [mkPet "Mochi" "dog" [0%nat; 1%nat; 2%nat]].

(** A loop state whose next candidate (Groom, 45 minutes) exceeds the
    remaining 30 minutes. *)
Definition state_groom_too_long : LoopState :=
  mkLoopState [2%nat] [] [] (6 * 60 + 10) 30 1.

(** Two hand-built scheduled tasks late in the evening: 23:00 for 120
    minutes and 23:30 for 10 minutes. *)
Definition tasks_late : list Task :=
  [Task_init "Night walk" 120 HIGH WALK "" None false;
   Task_init "Snack" 10 LOW FEEDING "" None false].

Definition st_night_walk : ScheduledTask := mkScheduledTask 0%nat (23 * 60) 0 "".
Definition st_snack : ScheduledTask := mkScheduledTask 1%nat (23 * 60 + 30) 1 "".

(** Two hand-built scheduled tasks in the morning: 06:00 for 30 minutes
    and 06:15 for 20 minutes. *)
Definition tasks_morning : list Task :=
  [Task_init "Walk" 30 HIGH WALK "" None false;
   Task_init "Feed" 20 CRITICAL FEEDING "" None false].

Definition st_walk : ScheduledTask := mkScheduledTask 0%nat (6 * 60) 0 "".
Definition st_feed : ScheduledTask := mkScheduledTask 1%nat (6 * 60 + 15) 1 "".

(** The overlap of the intervals [[start, start + duration)] in the words
    of the spec, on absolute minutes. *)
Definition intervals_overlap (heap : Heap) (a b : ScheduledTask) : Prop :=
  exists m, scheduled_time a <= m < scheduled_time a + duration_minutes (heap (st_task a))
       /\ scheduled_time b <= m < scheduled_time b + duration_minutes (heap (st_task b)).

(** ** The recurring-task lifecycle *)

(** The objects of the program: task objects by reference, and the next
    fresh reference for an allocation. *)
Record Store := mkStore {
  objects : Heap;
  next_ref : Ref
}.

(** Assignment to the object [r]. *)
Definition store_update (st : Store) (r : Ref) (t : Task) : Store :=
  mkStore (fun r' => if Nat.eqb r' r then t else objects st r') (next_ref st).

(** Allocation of a new object. *)
Definition store_alloc (st : Store) (t : Task) : Store * Ref :=
  (mkStore (fun r' => if Nat.eqb r' (next_ref st) then t else objects st r') (S (next_ref st)),
   next_ref st).

Definition set_is_completed (t : Task) (b : bool) : Task :=
  mkTask (title t) (duration_minutes t) (priority t) (category t) (description t)
    (frequency t) b.

(** [Task.mark_complete] on the object [self]. *)
Definition mark_complete (self : Ref) (st : Store) : Store * option Ref :=
  let st1 := store_update st self (set_is_completed (objects st self) true) in
  let t := objects st1 self in
  if negb (frequency_eqb (frequency t) ONCE) then
    let (st2, r) := store_alloc st1
                      (Task_init (title t) (duration_minutes t) (priority t) (category t)
                         (description t) (Some (frequency t)) false) in
    (st2, Some r)
  else (st1, None).

(** One daily medication task as object 0. *)
Definition store_daily_pill : Store :=
  mkStore (heap_of [Task_init "Pill" 5 CRITICAL MEDICATION "" (Some DAILY) false]) 1%nat.

(** A task constructed with a negative duration, owned by a pet of an
    owner with a 30-minute budget. *)
Definition tasks_negative : list Task := [Task_init "Feed" (-5) CRITICAL FEEDING "" None false].

Definition owner_negative : Owner := mkOwner "Jordan" 30 [mkPet "Mochi" "dog" [0%nat]].

(** A task whose duration, -2000000000 minutes, takes the cursor before
    [datetime.min]. *)
Definition tasks_very_negative : list Task :=
  [Task_init "Feed" (-2000000000) CRITICAL FEEDING "" None false].

(** ** Reasoning strings *)

(** A reasoning string that ends with the clause naming the priority tiers
    of the tasks the scheduled task was chosen over. *)
Definition ends_with_chosen_over (s : string) : Prop :=
  exists pre tiers : string,
    s = String.append pre (String.append "chosen over " (String.append tiers " priority tasks.")).

(** Scheduling data with the reasoning text blanked out. *)
Definition erase_reasoning (st : ScheduledTask) : ScheduledTask :=
  mkScheduledTask (st_task st) (scheduled_time st) (order_index st) "".

Definition erase_state (s : LoopState) : LoopState :=
  mkLoopState (available_tasks s) (map erase_reasoning (ls_scheduled s)) (ls_unscheduled s)
    (current_time s) (remaining_time s) (ls_order_index s).

Definition erase_schedule (s : Schedule) : Schedule :=
  mkSchedule (sdate s) (map erase_reasoning (scheduled_tasks s)) (unscheduled_tasks s)
    (total_time_minutes s) (utilization_percentage s).

(** The budget-40 run after its first iteration (Feed scheduled): Walk is
    selected with Groom as its only alternative. *)
Definition state_after_feed : LoopState :=
  sched_loop (heap_of tasks_budget40) generate_reasoning 1
    (mkLoopState [0%nat; 1%nat; 2%nat] [] [] (6 * 60) 40 0).

(** ** Pet and Owner operations *)

(** [sorted(xs, key=key)]: a stable insertion sort, ascending; an element
    goes after every element with a key not above its own. *)
Fixpoint insert_asc {A} (key : A -> Z) (x : A) (l : list A) : list A :=
  match l with
  | [] => [x]
  | y :: l' => if key y <=? key x then y :: insert_asc key x l' else x :: l
  end.

Definition sorted_asc {A} (key : A -> Z) (xs : list A) : list A :=
  fold_left (fun acc x => insert_asc key x acc) xs [].

(** [sorted(..., key=key, reverse=reverse)] *)
Definition sorted_by {A} (key : A -> Z) (reverse : bool) (xs : list A) : list A :=
  if reverse then sorted_desc key xs else sorted_asc key xs.

(** [lambda t: t.duration_minutes] *)
Definition duration_key (heap : Heap) (r : Ref) : Z := duration_minutes (heap r).

(** [task in self.tasks]: identity or the dataclass equality. *)
Definition task_in (heap : Heap) (r : Ref) (l : list Ref) : bool :=
  existsb (fun e => Nat.eqb e r || task_eqb (heap e) (heap r)) l.

(** [Pet.add_task] *)
Definition Pet_add_task (p : Pet) (task : Ref) : Pet :=
  mkPet (pet_name p) (species p) (pet_tasks p ++ [task]).

(** [Pet.remove_task]: [list.remove] runs only after the membership test,
    so it never raises. *)
Definition Pet_remove_task (heap : Heap) (p : Pet) (task : Ref) : Pet :=
  if task_in heap task (pet_tasks p)
  then mkPet (pet_name p) (species p) (list_remove heap task (pet_tasks p))
  else p.

(** [Pet.get_tasks_by_priority] *)
Definition Pet_get_tasks_by_priority (heap : Heap) (p : Pet) (prio : Priority) : list Ref :=
  filter (fun r => priority_eqb (priority (heap r)) prio) (pet_tasks p).

(** [Pet.get_tasks_by_category] *)
Definition Pet_get_tasks_by_category (heap : Heap) (p : Pet) (c : TaskCategory) : list Ref :=
  filter (fun r => category_eqb (category (heap r)) c) (pet_tasks p).

(** [Pet.get_tasks_by_completion] *)
Definition Pet_get_tasks_by_completion (heap : Heap) (p : Pet) (completed : bool) : list Ref :=
  filter (fun r => Bool.eqb (is_completed (heap r)) completed) (pet_tasks p).

(** [Pet.get_incomplete_tasks] *)
Definition Pet_get_incomplete_tasks (heap : Heap) (p : Pet) : list Ref :=
  Pet_get_tasks_by_completion heap p false.

(** [Pet.sort_tasks_by_time] *)
Definition Pet_sort_tasks_by_time (heap : Heap) (p : Pet) (reverse : bool) : list Ref :=
  sorted_by (duration_key heap) reverse (pet_tasks p).

(** [Pet.sort_tasks_by_priority] *)
Definition Pet_sort_tasks_by_priority (heap : Heap) (p : Pet) (reverse : bool) : list Ref :=
  sorted_by (priority_key heap) reverse (pet_tasks p).

(** [Owner.add_pet] *)
Definition Owner_add_pet (o : Owner) (p : Pet) : Owner :=
  mkOwner (owner_name o) (available_time_minutes o) (pets o ++ [p]).

(** [Owner.calculate_total_task_time]: [sum] adds from 0, left to right. *)
Definition calculate_total_task_time (heap : Heap) (o : Owner) : Z :=
  fold_left (fun acc r => acc + duration_minutes (heap r)) (get_all_tasks o) 0.

(** [Owner.get_incomplete_tasks] *)
Definition Owner_get_incomplete_tasks (heap : Heap) (o : Owner) : list Ref :=
  filter (fun r => negb (is_completed (heap r))) (get_all_tasks o).

(** [Owner.get_tasks_sorted_by_priority] *)
Definition get_tasks_sorted_by_priority (heap : Heap) (o : Owner) : list Ref :=
  sorted_desc (priority_key heap) (get_all_tasks o).

(** [Owner.get_tasks_sorted_by_time] *)
Definition get_tasks_sorted_by_time (heap : Heap) (o : Owner) : list Ref :=
  sorted_asc (duration_key heap) (get_all_tasks o).

(** ** Conflict reports and the explanation text *)

Definition newline : string := String (ascii_of_nat 10) EmptyString.

Definition digit_char (n : Z) : ascii := ascii_of_nat (48 + Z.to_nat n).

(** The decimal digits of [n >= 0], prepended to [acc]. *)
Fixpoint digits_Z (fuel : nat) (n : Z) (acc : string) : string :=
  match fuel with
  | O => acc
  | S fuel' =>
      let acc' := String (digit_char (n mod 10)) acc in
      if n <? 10 then acc' else digits_Z fuel' (n / 10) acc'
  end.

(** [str(n)] for an [int]; a number has no more decimal digits than
    binary ones. *)
Definition str_int (n : Z) : string :=
  let fuel := S (Z.to_nat (Z.log2 (Z.abs n))) in
  if n <? 0 then String "-" (digits_Z fuel (- n) "") else digits_Z fuel n "".

(** Left padding with zeros to [width] characters ([%02d], [%04d]). *)
Definition zero_pad (width : nat) (s : string) : string :=
  String.append (String.concat "" (repeat "0"%string (width - String.length s))) s.

(** [time.strftime('%H:%M')] *)
Definition strftime_HM (t : Time) : string :=
  String.append (zero_pad 2 (str_int (t / 60)))
    (String.append ":" (zero_pad 2 (str_int (t mod 60)))).

(** [str(date)]: ISO format [YYYY-MM-DD]. *)
Definition str_date (d : Date) : string :=
  String.append (zero_pad 4 (str_int (year d)))
    (String.append "-" (String.append (zero_pad 2 (str_int (month d)))
       (String.append "-" (zero_pad 2 (str_int (day d)))))).

(** The dictionary built for one conflicting pair. *)
Record Conflict := mkConflict {
  conflict_task1 : string;
  conflict_task1_time : string;
  conflict_task2 : string;
  conflict_task2_time : string;
  conflict_overlap : string
}.

Section Reports.
Variable heap : Heap.

Definition conflict_entry (task1 task2 : ScheduledTask) : Conflict :=
  mkConflict (title (heap (st_task task1)))
    (String.append (strftime_HM (scheduled_time task1))
       (String.append " - " (strftime_HM (get_end_time heap task1))))
    (title (heap (st_task task2)))
    (String.append (strftime_HM (scheduled_time task2))
       (String.append " - " (strftime_HM (get_end_time heap task2))))
    "These tasks have overlapping time slots".

(** [Schedule.detect_conflicts]: pairs [i < j] in the order of the two
    nested loops. *)
Fixpoint detect_conflicts (scheduled_tasks : list ScheduledTask) : list Conflict :=
  match scheduled_tasks with
  | [] => []
  | task1 :: rest =>
      flat_map (fun task2 => if conflicts_with heap task1 task2
                             then [conflict_entry task1 task2] else []) rest
      ++ detect_conflicts rest
  end.

(** [str] of the float [utilization_percentage] is not modelled: it is a
    parameter of the explanation. *)
Variable str_float : Q -> string.

(** [Schedule.generate_explanation] *)
Definition generate_explanation (s : Schedule) : string :=
  match scheduled_tasks s, unscheduled_tasks s with
  | [], [] => "No tasks to schedule."
  | _, _ =>
      let line1 := ("Scheduled " ++ str_int (Z.of_nat (List.length (scheduled_tasks s)))
                    ++ " task(s) for " ++ str_date (sdate s) ++ ".")%string in
      let line2 := ("Total time: " ++ str_int (total_time_minutes s) ++ " minutes ("
                    ++ str_float (utilization_percentage s) ++ "% utilization).")%string in
      let rest :=
        match unscheduled_tasks s with
        | [] => []
        | _ =>
            (newline ++ str_int (Z.of_nat (List.length (unscheduled_tasks s)))
             ++ " task(s) could not be scheduled:")%string
            :: map (fun r => ("  - " ++ title (heap r) ++ " (" ++ str_int (duration_minutes (heap r))
                              ++ " min, " ++ priority_name (priority (heap r)) ++ ")")%string)
                   (unscheduled_tasks s)
        end in
      String.concat newline (line1 :: line2 :: rest)
  end.

End Reports.

(** ** Binary64: the float [utilization_percentage]

    [utilization_percentage] is a Python [float], an IEEE-754 binary64
    number, modelled with the Standard Library's [SpecFloat] (53-bit
    significand, exponent of the infinities 1024), whose [SFdiv] and
    [SFmul] round to nearest, ties to even.  [None] stands for the
    exceptions. *)

Definition prec64 : Z := 53.
Definition emax64 : Z := 1024.

(** [2 ^ e] on rationals, for any integer [e]. *)
Definition pow2Q (e : Z) : Q := Qpower (inject_Z 2) e.

(** The exact value of a finite float; [None] for infinities and NaN. *)
Definition SF_value (x : spec_float) : option Q :=
  match x with
  | S754_zero _ => Some 0%Q
  | S754_finite s m e => Some (inject_Z (if s then Zneg m else Zpos m) * pow2Q e)%Q
  | _ => None
  end.

(** A Python [int] as an exact operand of true division. *)
Definition int_exact (z : Z) : spec_float :=
  match z with
  | Z0 => S754_zero false
  | Zpos p => S754_finite false p 0
  | Zneg p => S754_finite true p 0
  end.

(** [a / b] on two Python [int]s: the correctly rounded quotient.  [None]
    is [ZeroDivisionError] ([b = 0]) or [OverflowError] (a quotient too
    large for a float). *)
Definition py_int_truediv (a b : Z) : option spec_float :=
  if b =? 0 then None else
  match SFdiv prec64 emax64 (int_exact a) (int_exact b) with
  | S754_infinity _ => None
  | q => Some q
  end.

(** The float [100.0] (the [int] 100 converted for [float * int]),
    [7036874417766400 * 2 ^ -46]. *)
Definition float_100 : spec_float := S754_finite false 7036874417766400 (-46).

(** [n / d] for [0 < d] rounded to an integer, ties to even. *)
Definition round_half_even_div (n d : Z) : Z :=
  let fl := n / d in
  let r := n mod d in
  if 2 * r <? d then fl
  else if d <? 2 * r then fl + 1
  else if Z.even fl then fl else fl + 1.

(** [round(x, 2)] on a float ([float.__round__]): infinities, NaN and
    zeros are returned as they are; a finite [x] is rounded to the nearest
    multiple [k / 100] of its exact value (ties to even, as [_Py_dg_dtoa]
    in mode 3 does), and the string ["k e-2"] is read back with
    [_Py_dg_strtod], the correctly rounded float nearest [k / 100]
    ([OverflowError] if that is infinite); [k = 0] gives a zero of the
    sign of [x]. *)
Definition py_round2 (x : spec_float) : option spec_float :=
  match x with
  | S754_finite s m e =>
      let k := if 0 <=? e then Zpos m * 100 * 2 ^ e
               else round_half_even_div (Zpos m * 100) (2 ^ (- e)) in
      match k with
      | Zpos k' =>
          match SFdiv prec64 emax64 (S754_finite s k' 0) (int_exact 100) with
          | S754_infinity _ => None
          | r => Some r
          end
      | _ => Some (S754_zero s)
      end
  | _ => Some x
  end.

(** [Schedule.calculate_utilization] on floats: the value it stores in
    [utilization_percentage], [round((total / available_time) * 100, 2)],
    or [0.0] for [available_time == 0]. *)
Definition calculate_utilization_float (total available_time : Z) : option spec_float :=
  if available_time =? 0 then Some (S754_zero false)
  else match py_int_truediv total available_time with
       | None => None
       | Some q => py_round2 (SFmul prec64 emax64 q float_100)
       end.

(** The float [utilization_percentage] of the schedule
    [PriorityGreedyScheduler.generate_schedule] returns: the default [0.0]
    when there are no tasks, and otherwise what [calculate_utilization]
    stores for the schedule's [total_time_minutes] and the owner's
    budget. *)
Definition generate_utilization (heap : Heap) (owner : Owner) (date : Date) : option spec_float :=
  match sorted_desc (priority_key heap) (get_all_tasks owner) with
  | [] => Some (S754_zero false)
  | _ => calculate_utilization_float
           (total_time_minutes (generate_schedule heap owner date))
           (available_time_minutes owner)
  end.

(** The float Python reads from the two-decimal literal [k / 100]. *)
Definition float_of_hundredths (k : Z) : spec_float :=
  SFdiv prec64 emax64 (int_exact k) (int_exact 100).

(** The shift of a significand by [n] bits in [SpecFloat.shr]: the
    record's significand is divided by [2 ^ n], and the result is exact
    when no bit was lost. *)
Definition shr_exact (mrs : shr_record) : Prop := shr_r mrs = false /\ shr_s mrs = false.

Definition shr_spec (n : Z) (mrs mrs' : shr_record) : Prop :=
  shr_m mrs' = shr_m mrs / 2 ^ n
  /\ (shr_exact mrs' <-> shr_m mrs mod 2 ^ n = 0 /\ shr_exact mrs).

(** Budget 160 with one 23-minute task. *)
Definition tasks_23 : list Task := [Task_init "Walk" 23 MEDIUM WALK "" None false].

Definition owner_160 : Owner := mkOwner "Jordan" 160 [mkPet "Mochi" "dog" [0%nat]].

(** Budget 100 with one 50-minute task. *)
Definition tasks_fifty : list Task := [Task_init "Walk" 50 HIGH WALK "" None false].

Definition owner_100 : Owner := mkOwner "Jordan" 100 [mkPet "Mochi" "dog" [0%nat]].

(** * Properties *)

(** ** Subsequences *)

Inductive subseq {A} : list A -> list A -> Prop :=
| subseq_nil : subseq [] []
| subseq_take x l1 l2 : subseq l1 l2 -> subseq (x :: l1) (x :: l2)
| subseq_skip x l1 l2 : subseq l1 l2 -> subseq l1 (x :: l2).

Create HintDb pawpal.
#[export] Hint Constructors subseq : pawpal.

Section Subseq.
Context {A : Type}.

Lemma subseq_nil_l (l : list A) : subseq [] l.
Proof. induction l; auto with pawpal. Qed.

Lemma subseq_refl (l : list A) : subseq l l.
Proof. induction l; auto with pawpal. Qed.

Lemma subseq_app_l (s l1 l2 : list A) : subseq l1 l2 -> subseq (s ++ l1) (s ++ l2).
Proof. induction s; simpl; auto with pawpal. Qed.

Lemma subseq_trans (l1 l2 l3 : list A) : subseq l1 l2 -> subseq l2 l3 -> subseq l1 l3.
Proof.
  intros H12 H23. revert l1 H12.
  induction H23; intros l0 H; auto with pawpal.
  - inversion H; subst; auto with pawpal.
Qed.

Lemma subseq_app_inv_l (l1 l2 l : list A) : subseq (l1 ++ l2) l -> subseq l1 l.
Proof.
  intros H. eapply subseq_trans; [|exact H].
  rewrite <- (app_nil_r l1) at 1. apply subseq_app_l, subseq_nil_l.
Qed.

Lemma subseq_drop_mid (s t l : list A) (h : A) : subseq (s ++ h :: t) l -> subseq (s ++ t) l.
Proof.
  intros H. eapply subseq_trans; [|exact H].
  apply subseq_app_l. apply subseq_skip, subseq_refl.
Qed.

Lemma subseq_incl (l1 l2 : list A) : subseq l1 l2 -> forall x, In x l1 -> In x l2.
Proof. induction 1; simpl; intuition. Qed.

Lemma subseq_filter (f : A -> bool) (l1 l2 : list A) :
  subseq l1 l2 -> subseq (filter f l1) (filter f l2).
Proof.
  induction 1; simpl; auto with pawpal.
  - destruct (f x); auto with pawpal.
  - destruct (f x); auto with pawpal.
Qed.

Lemma subseq_StronglySorted (R : A -> A -> Prop) (l1 l2 : list A) :
  subseq l1 l2 -> StronglySorted R l2 -> StronglySorted R l1.
Proof.
  induction 1; intros HS; auto.
  - inversion HS; subst. constructor; auto.
    rewrite Forall_forall in *. intros y Hy. apply H3. eapply subseq_incl; eauto.
  - inversion HS; auto.
Qed.

End Subseq.

(** ** The stable descending sort *)

Section Sorting.
Context {A : Type} (key : A -> Z).

Definition desc (a b : A) : Prop := key b <= key a.

Lemma insert_desc_perm (x : A) (l : list A) : Permutation (insert_desc key x l) (x :: l).
Proof.
  induction l as [|y l IH]; simpl; auto.
  destruct (key x <=? key y); auto.
  eapply perm_trans; [apply perm_skip, IH | apply perm_swap].
Qed.

Lemma sorted_desc_perm_acc (xs acc : list A) :
  Permutation (fold_left (fun acc x => insert_desc key x acc) xs acc) (xs ++ acc).
Proof.
  revert acc. induction xs as [|x xs IH]; intros acc; simpl; auto.
  eapply perm_trans; [apply IH|].
  eapply perm_trans; [apply Permutation_app_head, insert_desc_perm|].
  apply Permutation_sym, Permutation_middle.
Qed.

Lemma sorted_desc_perm (xs : list A) : Permutation (sorted_desc key xs) xs.
Proof.
  unfold sorted_desc. rewrite <- (app_nil_r xs) at 2. apply sorted_desc_perm_acc.
Qed.

Lemma insert_desc_sorted (x : A) (l : list A) :
  StronglySorted desc l -> StronglySorted desc (insert_desc key x l).
Proof.
  induction 1 as [|y l HS IH HF]; simpl.
  - repeat constructor.
  - destruct (key x <=? key y) eqn:E.
    + constructor; auto.
      rewrite Forall_forall in *. intros z Hz.
      apply (Permutation_in _ (insert_desc_perm x l)) in Hz.
      destruct Hz as [<-|Hz]; [unfold desc; lia|auto].
    + apply Z.leb_gt in E. constructor; [constructor; auto|].
      constructor; [unfold desc; lia|].
      rewrite Forall_forall in *. intros z Hz. specialize (HF z Hz). unfold desc in *. lia.
Qed.

Lemma sorted_desc_sorted_acc (xs acc : list A) :
  StronglySorted desc acc ->
  StronglySorted desc (fold_left (fun acc x => insert_desc key x acc) xs acc).
Proof.
  revert acc. induction xs; intros acc H; simpl; auto using insert_desc_sorted.
Qed.

Lemma sorted_desc_sorted (xs : list A) : StronglySorted desc (sorted_desc key xs).
Proof. apply sorted_desc_sorted_acc. constructor. Qed.

Lemma filter_all_false (f : A -> bool) (l : list A) :
  (forall z, In z l -> f z = false) -> filter f l = [].
Proof.
  induction l as [|y l IH]; simpl; intros H; auto.
  rewrite H by auto. apply IH. auto.
Qed.

Lemma filter_insert_other (k : Z) (x : A) (l : list A) :
  key x <> k ->
  filter (fun r => key r =? k) (insert_desc key x l) = filter (fun r => key r =? k) l.
Proof.
  intros Hx. induction l as [|y l IH]; simpl.
  - apply Z.eqb_neq in Hx. now rewrite Hx.
  - destruct (key x <=? key y); simpl.
    + now rewrite IH.
    + apply Z.eqb_neq in Hx. now rewrite Hx.
Qed.

Lemma filter_insert_same (k : Z) (x : A) (l : list A) :
  key x = k -> StronglySorted desc l ->
  filter (fun r => key r =? k) (insert_desc key x l) = filter (fun r => key r =? k) l ++ [x].
Proof.
  intros Hx HS. induction HS as [|y l HS IH HF]; simpl.
  - rewrite Hx, Z.eqb_refl. reflexivity.
  - destruct (key x <=? key y) eqn:E; simpl.
    + rewrite IH. destruct (key y =? k); reflexivity.
    + apply Z.leb_gt in E. rewrite Hx, Z.eqb_refl.
      assert (Hy : (key y =? k) = false) by (apply Z.eqb_neq; lia). rewrite Hy.
      assert (Hl : filter (fun r => key r =? k) l = []).
      { apply filter_all_false. intros z Hz. rewrite Forall_forall in HF.
        specialize (HF z Hz). unfold desc in HF. apply Z.eqb_neq. lia. }
      rewrite Hl. reflexivity.
Qed.

Lemma filter_sorted_desc_acc (k : Z) (xs acc : list A) :
  StronglySorted desc acc ->
  filter (fun r => key r =? k) (fold_left (fun acc x => insert_desc key x acc) xs acc)
  = filter (fun r => key r =? k) acc ++ filter (fun r => key r =? k) xs.
Proof.
  revert acc. induction xs as [|x xs IH]; intros acc HS; simpl.
  - now rewrite app_nil_r.
  - rewrite IH by (apply insert_desc_sorted; auto).
    destruct (Z.eq_dec (key x) k) as [E|E].
    + rewrite filter_insert_same by auto. rewrite E, Z.eqb_refl, <- app_assoc. reflexivity.
    + rewrite filter_insert_other by auto.
      apply Z.eqb_neq in E. rewrite E. reflexivity.
Qed.

(** [sorted] is stable: within one key, the original order is kept. *)
Lemma filter_sorted_desc (k : Z) (xs : list A) :
  filter (fun r => key r =? k) (sorted_desc key xs) = filter (fun r => key r =? k) xs.
Proof. unfold sorted_desc. rewrite filter_sorted_desc_acc; [reflexivity|constructor]. Qed.

End Sorting.

(** ** Selection, removal and one loop iteration *)

Section SchedulerFacts.
Variable heap : Heap.
Variable gen_reasoning : Task -> Z -> list Task -> string.


Lemma priority_key_pos (r : Ref) : 1 <= priority_key heap r.
Proof. unfold priority_key, get_priority_score. destruct (priority (heap r)); simpl; lia. Qed.

Lemma task_eqb_priority (a b : Task) :
  task_eqb a b = true -> get_priority_score a = get_priority_score b.
Proof.
  unfold task_eqb. intros H. repeat rewrite andb_true_iff in H.
  destruct H as [[[[[[_ _] Hp] _] _] _] _].
  unfold priority_eqb in Hp. apply Z.eqb_eq in Hp. exact Hp.
Qed.

Lemma select_scan_le (c : Time) (b : option Ref) (bs : Z) (l : list Ref) :
  Forall (fun r => priority_key heap r <= bs) l -> select_scan heap c b bs l = b.
Proof.
  revert b bs. induction l as [|e l IH]; intros b bs H; simpl; auto.
  inversion H; subst. unfold calculate_task_score.
  fold (priority_key heap e). destruct (bs <? priority_key heap e) eqn:E; [apply Z.ltb_lt in E; lia|]. auto.
Qed.

Lemma select_sorted (c : Time) (h : Ref) (t : list Ref) :
  StronglySorted (desc (priority_key heap)) (h :: t) -> select_next_task heap (h :: t) c = Some h.
Proof.
  intros HS. inversion HS as [|? ? _ HF]; subst. unfold select_next_task. simpl.
  unfold calculate_task_score. fold (priority_key heap h).
  pose proof (priority_key_pos h).
  destruct (-1 <? priority_key heap h) eqn:E; [|apply Z.ltb_ge in E; lia].
  apply select_scan_le. eapply Forall_impl; [|exact HF]. unfold desc. auto.
Qed.

Lemma list_remove_head (h : Ref) (t : list Ref) : list_remove heap h (h :: t) = t.
Proof. simpl. now rewrite Nat.eqb_refl. Qed.

(** [_select_next_task] returns the first candidate of maximal score. *)
Lemma select_scan_first_max (c : Time) (l : list Ref) (b : option Ref) (bs : Z) (x : Ref) :
  select_scan heap c b bs l = Some x ->
  (b = Some x /\ Forall (fun r => priority_key heap r <= bs) l)
  \/ (exists l1 l2, l = l1 ++ x :: l2 /\ bs < priority_key heap x /\ Forall (fun r => priority_key heap r < priority_key heap x) l1).
Proof.
  revert b bs. induction l as [|e l IH]; intros b bs H; simpl in H.
  - left. auto.
  - unfold calculate_task_score in H. fold (priority_key heap e) in H.
    destruct (bs <? priority_key heap e) eqn:E.
    + apply Z.ltb_lt in E. right.
      destruct (IH _ _ H) as [[Hb HF]|(l1 & l2 & -> & Hlt & HF)].
      * injection Hb as <-. exists [], l. auto.
      * exists (e :: l1), l2. split; [reflexivity|]. split; [lia|].
        constructor; [lia|exact HF].
    + apply Z.ltb_ge in E.
      destruct (IH _ _ H) as [[Hb HF]|(l1 & l2 & -> & Hlt & HF)].
      * left. auto.
      * right. exists (e :: l1), l2. split; [reflexivity|]. split; [lia|].
        constructor; [lia|exact HF].
Qed.

Lemma select_first_max (c : Time) (l : list Ref) (x : Ref) :
  select_next_task heap l c = Some x ->
  exists l1 l2, l = l1 ++ x :: l2 /\ Forall (fun r => priority_key heap r < priority_key heap x) l1.
Proof.
  unfold select_next_task. destruct l as [|e l]; [discriminate|].
  intros H. apply select_scan_first_max in H.
  destruct H as [[Hb _]|(l1 & l2 & E & _ & HF)]; [discriminate|]. eauto.
Qed.

(** [list.remove] drops exactly the selected candidate: an element equal
    to it would have the same score and would have been selected first. *)
Lemma list_remove_selected (c : Time) (l : list Ref) (x : Ref) :
  select_next_task heap l c = Some x ->
  Permutation l (x :: list_remove heap x l).
Proof.
  intros H. destruct (select_first_max c l x H) as (l1 & l2 & -> & HF).
  assert (E : list_remove heap x (l1 ++ x :: l2) = l1 ++ l2).
  { clear H. induction l1 as [|e l1 IH]; simpl.
    - now rewrite Nat.eqb_refl.
    - inversion HF as [|? ? He HF']; subst.
      assert (Ex : Nat.eqb e x = false) by (apply Nat.eqb_neq; intros ->; lia).
      assert (Et : task_eqb (heap e) (heap x) = false).
      { destruct (task_eqb (heap e) (heap x)) eqn:Et; auto.
        apply task_eqb_priority in Et. unfold priority_key in He. lia. }
      rewrite Ex, Et. simpl. f_equal. apply IH. exact HF'. }
  rewrite E. apply Permutation_sym, Permutation_middle.
Qed.

Lemma select_nonempty (c : Time) (l : list Ref) :
  l <> [] -> exists x, select_next_task heap l c = Some x.
Proof.
  destruct l as [|e l]; [contradiction|]. intros _.
  unfold select_next_task. simpl. unfold calculate_task_score. fold (priority_key heap e).
  pose proof (priority_key_pos e).
  destruct (-1 <? priority_key heap e) eqn:E; [|apply Z.ltb_ge in E; lia].
  assert (G : forall l' bs y, select_scan heap c (Some y) bs l' <> None).
  { induction l' as [|a l' IH]; intros bs y; simpl; [discriminate|].
    destruct (bs <? calculate_task_score (heap a) c); apply IH. }
  destruct (select_scan heap c (Some e) (priority_key heap e) l) eqn:S; [eauto|].
  exfalso. exact (G l (priority_key heap e) e S).
Qed.

Definition scheduled_entry (s : LoopState) (h : Ref) (t : list Ref) : ScheduledTask :=
  mkScheduledTask h (current_time s) (ls_order_index s)
    (gen_reasoning (heap h) (calculate_task_score (heap h) (current_time s))
       (map heap (firstn 3 (h :: t)))).

(** On a pool sorted by descending priority, an iteration handles the head. *)
Lemma loop_step_sorted (s : LoopState) (h : Ref) (t : list Ref) :
  available_tasks s = h :: t -> StronglySorted (desc (priority_key heap)) (h :: t) ->
  loop_step heap gen_reasoning s =
  Some (if can_fit_task (heap h) (current_time s) (remaining_time s) then
          mkLoopState t (ls_scheduled s ++ [scheduled_entry s h t]) (ls_unscheduled s)
            (add_minutes (current_time s) (duration_minutes (heap h)))
            (remaining_time s - duration_minutes (heap h)) (ls_order_index s + 1)
        else
          mkLoopState t (ls_scheduled s) (ls_unscheduled s ++ [h]) (current_time s)
            (remaining_time s) (ls_order_index s)).
Proof.
  intros Ha HS. unfold loop_step. rewrite Ha, (select_sorted _ _ _ HS), list_remove_head.
  destruct (can_fit_task _ _ _); reflexivity.
Qed.

Lemma sched_loop_invariant (P : LoopState -> Prop) :
  (forall s h t s', available_tasks s = h :: t -> StronglySorted (desc (priority_key heap)) (h :: t) ->
     0 < remaining_time s -> loop_step heap gen_reasoning s = Some s' -> P s -> P s') ->
  forall fuel s, StronglySorted (desc (priority_key heap)) (available_tasks s) -> P s ->
  P (sched_loop heap gen_reasoning fuel s)
  /\ StronglySorted (desc (priority_key heap)) (available_tasks (sched_loop heap gen_reasoning fuel s)).
Proof.
  intros Hstep fuel. induction fuel as [|fuel IH]; intros s HS HP; simpl; [split; auto|].
  destruct (0 <? remaining_time s) eqn:R; simpl; [|split; auto].
  destruct (available_tasks s) as [|h t] eqn:A; simpl; [rewrite A; split; auto|].
  apply Z.ltb_lt in R.
  pose proof (loop_step_sorted s h t A HS) as E. rewrite E.
  apply IH.
  - inversion HS; subst. destruct (can_fit_task _ _ _); simpl; auto.
  - eapply Hstep; eauto.
Qed.

End SchedulerFacts.

(** ** Enough fuel for the [while] loop *)

Section Fuel.
Variable heap : Heap.
Variable gen_reasoning : Task -> Z -> list Task -> string.

Lemma list_remove_in_length (x : Ref) (l : list Ref) :
  In x l -> S (List.length (list_remove heap x l)) = List.length l.
Proof.
  induction l as [|e l IH]; intros Hin; [destruct Hin|]. simpl.
  destruct (Nat.eqb e x) eqn:Ex; simpl; [reflexivity|].
  destruct (task_eqb (heap e) (heap x)); simpl; [reflexivity|].
  destruct Hin as [<-|Hin]; [rewrite Nat.eqb_refl in Ex; discriminate|].
  rewrite (IH Hin). reflexivity.
Qed.

Lemma select_scan_in (c : Time) (b : option Ref) (bs : Z) (l : list Ref) (x : Ref) :
  select_scan heap c b bs l = Some x -> b = Some x \/ In x l.
Proof.
  revert b bs. induction l as [|e l IH]; intros b bs H; simpl in H; [auto|].
  destruct (bs <? _); apply IH in H; destruct H as [H|H]; simpl; auto.
  injection H as ->. auto.
Qed.

Lemma select_in (c : Time) (l : list Ref) (x : Ref) :
  select_next_task heap l c = Some x -> In x l.
Proof.
  unfold select_next_task. destruct l as [|e l]; [discriminate|].
  intros H. apply select_scan_in in H. destruct H as [H|H]; [discriminate|exact H].
Qed.

Lemma loop_step_length (s s' : LoopState) :
  loop_step heap gen_reasoning s = Some s' ->
  S (List.length (available_tasks s')) = List.length (available_tasks s).
Proof.
  unfold loop_step. destruct (select_next_task heap _ _) as [x|] eqn:Hsel; [|discriminate].
  apply select_in in Hsel.
  destruct (negb _); intros H; injection H as <-; apply list_remove_in_length, Hsel.
Qed.

(** Every iteration removes one candidate from the pool, so a fuel of
    [length available_tasks] runs the [while] loop to its end. *)
Lemma sched_loop_fuel_enough (fuel k : nat) (s : LoopState) :
  (List.length (available_tasks s) <= fuel)%nat ->
  sched_loop heap gen_reasoning (fuel + k) s = sched_loop heap gen_reasoning fuel s.
Proof.
  revert s. induction fuel as [|fuel IH]; intros s Hlen.
  - destruct (available_tasks s) as [|h t] eqn:A; [|simpl in Hlen; lia].
    destruct k; simpl; [reflexivity|]. rewrite A, andb_false_r. reflexivity.
  - simpl. destruct (_ && _); [|reflexivity].
    destruct (loop_step heap gen_reasoning s) as [s'|] eqn:E; [|reflexivity].
    apply IH. apply loop_step_length in E. lia.
Qed.

End Fuel.

(** ** Shape of [generate_schedule] *)

Definition initial_state (available : list Ref) (budget : Z) : LoopState :=
  mkLoopState available [] [] (6 * 60) budget 0.

Lemma finalize_lists (heap : Heap) (sch : Schedule) (b : Z) :
  scheduled_tasks (calculate_utilization (calculate_total_time heap sch) b) = scheduled_tasks sch
  /\ unscheduled_tasks (calculate_utilization (calculate_total_time heap sch) b)
     = unscheduled_tasks sch.
Proof. unfold calculate_utilization. destruct (b =? 0); simpl; auto. Qed.

Lemma generate_schedule_lists (heap : Heap) gen (owner : Owner) (date : Date) :
  let available := sorted_desc (priority_key heap) (get_all_tasks owner) in
  let r := generate_schedule_with heap gen owner date in
  (scheduled_tasks r = [] /\ unscheduled_tasks r = available)
  \/ (0 < available_time_minutes owner
      /\ let s := sched_loop heap gen (List.length available)
                    (initial_state available (available_time_minutes owner)) in
         scheduled_tasks r = ls_scheduled s
         /\ unscheduled_tasks r = ls_unscheduled s ++ available_tasks s).
Proof.
  cbv zeta. unfold generate_schedule_with.
  destruct (sorted_desc (priority_key heap) (get_all_tasks owner)) as [|h t] eqn:E.
  - left. simpl. auto.
  - destruct (available_time_minutes owner <=? 0) eqn:B.
    + left. apply finalize_lists.
    + right. apply Z.leb_gt in B. split; [exact B|]. apply finalize_lists.
Qed.

Ltac loop_step_cases :=
  let s := fresh "s" in let h := fresh "h" in let t := fresh "t" in
  let s' := fresh "s'" in let A := fresh "A" in let HS := fresh "HS" in
  let R := fresh "R" in let E := fresh "E" in let HP := fresh "HP" in
  let F := fresh "F" in
  intros s h t s' A HS R E HP;
  rewrite (loop_step_sorted _ _ s h t A HS) in E; injection E as <-;
  destruct (can_fit_task _ _ _) eqn:F; simpl; try rewrite A in HP.

Lemma sched_loop_partition (heap : Heap) gen (available : list Ref) (fuel : nat) (s0 : LoopState) :
  StronglySorted (desc (priority_key heap)) (available_tasks s0) ->
  Permutation (map st_task (ls_scheduled s0) ++ ls_unscheduled s0 ++ available_tasks s0) available ->
  let s := sched_loop heap gen fuel s0 in
  Permutation (map st_task (ls_scheduled s) ++ ls_unscheduled s ++ available_tasks s) available.
Proof.
  intros Hsorted Hinit. apply (sched_loop_invariant heap gen
    (fun s => Permutation (map st_task (ls_scheduled s) ++ ls_unscheduled s ++ available_tasks s)
                          available)); auto.
  loop_step_cases.
  - eapply perm_trans; [|exact HP]. rewrite map_app, <- app_assoc. simpl.
    apply Permutation_app_head, Permutation_middle.
  - rewrite <- app_assoc. exact HP.
Qed.

(** ** C10: the schedule partitions the owner's tasks *)

(** C10.  Every task reference returned by [Owner.get_all_tasks] ends up
    either in [scheduled_tasks] (through its [.task] field) or in
    [unscheduled_tasks]: the two lists together are a permutation of the
    aggregated tasks, so when the aggregation has no repeated reference
    each task occurs exactly once in exactly one of the lists. *)
Theorem generate_schedule_partition (heap : Heap) (owner : Owner) (date : Date) :
  let r := generate_schedule heap owner date in
  Permutation (map st_task (scheduled_tasks r) ++ unscheduled_tasks r) (get_all_tasks owner)
  /\ (NoDup (get_all_tasks owner) -> NoDup (map st_task (scheduled_tasks r) ++ unscheduled_tasks r)).
Proof.
  cbv zeta.
  assert (HP : Permutation (map st_task (scheduled_tasks (generate_schedule heap owner date))
                            ++ unscheduled_tasks (generate_schedule heap owner date))
                           (get_all_tasks owner)).
  { eapply perm_trans; [|apply (sorted_desc_perm (priority_key heap))].
    unfold generate_schedule.
    destruct (generate_schedule_lists heap generate_reasoning owner date)
      as [[-> ->]|[_ [-> ->]]]; [reflexivity|].
    apply sched_loop_partition; [apply sorted_desc_sorted|]. simpl. reflexivity. }
  split; [exact HP|].
  intros ND. eapply Permutation_NoDup; [apply Permutation_sym, HP|exact ND].
Qed.

(** ** C3: priority order of the scheduled tasks *)

Lemma sched_loop_subseq (heap : Heap) gen (available : list Ref) (fuel : nat) (s0 : LoopState) :
  StronglySorted (desc (priority_key heap)) (available_tasks s0) ->
  subseq (map st_task (ls_scheduled s0) ++ available_tasks s0) available ->
  let s := sched_loop heap gen fuel s0 in
  subseq (map st_task (ls_scheduled s) ++ available_tasks s) available.
Proof.
  intros Hsorted Hinit. apply (sched_loop_invariant heap gen
    (fun s => subseq (map st_task (ls_scheduled s) ++ available_tasks s) available)); auto.
  loop_step_cases.
  - rewrite map_app, <- app_assoc. exact HP.
  - eapply subseq_drop_mid. exact HP.
Qed.

Lemma StronglySorted_map_desc {A} (f : A -> Z) (l : list A) :
  StronglySorted (desc f) l -> StronglySorted (fun p q => q <= p) (map f l).
Proof.
  induction 1 as [|a l HS IH HF]; simpl; constructor; auto.
  apply Forall_map. eapply Forall_impl; [|exact HF]. unfold desc. auto.
Qed.

Lemma generate_schedule_scheduled_subseq (heap : Heap) gen (owner : Owner) (date : Date) :
  subseq (map st_task (scheduled_tasks (generate_schedule_with heap gen owner date)))
         (sorted_desc (priority_key heap) (get_all_tasks owner)).
Proof.
  destruct (generate_schedule_lists heap gen owner date) as [[-> _]|[_ [-> _]]].
  - apply subseq_nil_l.
  - eapply subseq_app_inv_l. apply sched_loop_subseq.
    + apply sorted_desc_sorted.
    + apply subseq_refl.
Qed.

(** C3.  The priority ordinals of [scheduled_tasks], read in assignment
    order, never increase; and for every priority tier, the scheduled
    tasks of that tier appear in the order of [Owner.get_all_tasks] (pet
    order, then task order within each pet), as a subsequence of it. *)
Theorem generate_schedule_priority_order (heap : Heap) (owner : Owner) (date : Date) :
  let sched := map st_task (scheduled_tasks (generate_schedule heap owner date)) in
  Sorted (fun p q => q <= p) (map (fun r => get_priority_score (heap r)) sched)
  /\ forall p : Priority,
       subseq (filter (fun r => priority_eqb (priority (heap r)) p) sched)
              (filter (fun r => priority_eqb (priority (heap r)) p) (get_all_tasks owner)).
Proof.
  cbv zeta. pose proof (generate_schedule_scheduled_subseq heap generate_reasoning owner date) as Hsub.
  fold (generate_schedule heap owner date) in Hsub.
  split.
  - apply StronglySorted_Sorted.
    change (fun r => get_priority_score (heap r)) with (priority_key heap).
    apply StronglySorted_map_desc. eapply subseq_StronglySorted; [exact Hsub|].
    apply sorted_desc_sorted.
  - intros p.
    change (fun r => priority_eqb (priority (heap r)) p)
      with (fun r => priority_key heap r =? priority_value p).
    rewrite <- (filter_sorted_desc (priority_key heap) _ (get_all_tasks owner)).
    apply subseq_filter. exact Hsub.
Qed.

(** ** Schedules within the day *)

Definition sum_durations (heap : Heap) (l : list ScheduledTask) : Z :=
  fold_right (fun st acc => duration_minutes (heap (st_task st)) + acc) 0 l.

Lemma sum_durations_app (heap : Heap) (l1 l2 : list ScheduledTask) :
  sum_durations heap (l1 ++ l2) = sum_durations heap l1 + sum_durations heap l2.
Proof. unfold sum_durations. rewrite fold_right_app. induction l1; simpl; lia. Qed.

Lemma ForallOrdPairs_snoc {A} (R : A -> A -> Prop) (l : list A) (x : A) :
  ForallOrdPairs R l -> Forall (fun a => R a x) l -> ForallOrdPairs R (l ++ [x]).
Proof.
  induction 1 as [|a l Ha HP IH]; intros HF; simpl.
  - repeat constructor.
  - inversion HF; subst. constructor; auto.
    apply Forall_app. auto.
Qed.

Lemma validate_ordered (heap : Heap) (l : list ScheduledTask) :
  ForallOrdPairs (fun a b => get_end_time heap a <= scheduled_time b) l ->
  validate heap l = true.
Proof.
  induction 1 as [|a l Ha HP IH]; simpl; auto.
  rewrite IH, andb_true_r. apply forallb_forall. intros b Hb.
  rewrite Forall_forall in Ha. specialize (Ha b Hb).
  unfold conflicts_with. apply Z.leb_le in Ha. rewrite Ha. reflexivity.
Qed.

Definition within_day_invariant (heap : Heap) (budget : Z) (s : LoopState) : Prop :=
  let used := sum_durations heap (ls_scheduled s) in
  0 <= used /\ used + remaining_time s = budget
  /\ current_time s = (6 * 60 + used) mod minutes_per_day
  /\ ForallOrdPairs (fun a b => get_end_time heap a <= scheduled_time b) (ls_scheduled s)
  /\ Forall (fun a => get_end_time heap a <= 6 * 60 + used) (ls_scheduled s)
  /\ Forall (fun r => 0 <= duration_minutes (heap r)) (available_tasks s).

Lemma within_day_step (heap : Heap) gen (budget : Z) (s : LoopState) (h : Ref) (t : list Ref) :
  budget <= 1080 -> available_tasks s = h :: t -> 0 < remaining_time s ->
  within_day_invariant heap budget s ->
  within_day_invariant heap budget
    (if can_fit_task (heap h) (current_time s) (remaining_time s) then
       mkLoopState t (ls_scheduled s ++ [scheduled_entry heap gen s h t]) (ls_unscheduled s)
         (add_minutes (current_time s) (duration_minutes (heap h)))
         (remaining_time s - duration_minutes (heap h)) (ls_order_index s + 1)
     else
       mkLoopState t (ls_scheduled s) (ls_unscheduled s ++ [h]) (current_time s)
         (remaining_time s) (ls_order_index s)).
Proof.
  intros Hb A R (Hu & Hrem & Hcur & Hord & Hend & Hpool).
  rewrite A in Hpool. apply Forall_cons_iff in Hpool as [Hh Ht].
  destruct (can_fit_task (heap h) (current_time s) (remaining_time s)) eqn:F;
    unfold within_day_invariant;
    cbn [ls_scheduled remaining_time current_time available_tasks ls_unscheduled].
  - unfold can_fit_task in F. apply Z.leb_le in F.
    rewrite sum_durations_app.
    replace (sum_durations heap [scheduled_entry heap gen s h t]) with (duration_minutes (heap h))
      by (unfold sum_durations, scheduled_entry; cbn [fold_right st_task]; lia).
    set (used := sum_durations heap (ls_scheduled s)) in *.
    set (d := duration_minutes (heap h)) in *.
    assert (Hc : current_time s = 6 * 60 + used).
    { rewrite Hcur. apply Z.mod_small. unfold minutes_per_day. lia. }
    split; [lia|]. split; [lia|]. split.
    { unfold add_minutes. rewrite Hcur, Zplus_mod_idemp_l. f_equal. lia. }
    split.
    { apply ForallOrdPairs_snoc; auto. unfold scheduled_entry. cbn [scheduled_time].
      rewrite Hc. exact Hend. }
    split; [|exact Ht].
    apply Forall_app. split.
    + refine (Forall_impl _ _ Hend). intros a Ha. lia.
    + constructor; [|constructor]. unfold get_end_time, scheduled_entry, add_minutes.
      cbn [scheduled_time st_task]. fold d. rewrite Hc. unfold minutes_per_day.
      assert (0 <= 6 * 60 + used + d) by lia.
      pose proof (Z.mod_le (6 * 60 + used + d) 1440 ltac:(lia) ltac:(lia)). lia.
  - repeat split; auto.
Qed.

Lemma sched_loop_within_day (heap : Heap) gen (budget : Z) (fuel : nat) (s0 : LoopState) :
  budget <= 1080 ->
  StronglySorted (desc (priority_key heap)) (available_tasks s0) ->
  within_day_invariant heap budget s0 ->
  within_day_invariant heap budget (sched_loop heap gen fuel s0).
Proof.
  intros Hb Hsorted Hinit. apply (sched_loop_invariant heap gen (within_day_invariant heap budget));
    auto.
  intros s h t s' A HS R E HP.
  rewrite (loop_step_sorted _ _ s h t A HS) in E. injection E as <-.
  apply within_day_step; auto.
Qed.

(** ** C2: the conflict test *)

(** C2 (counterexample).  A task at 23:00 lasting 120 minutes and one at
    23:30 lasting 10 minutes overlap, but the end time of the first wraps
    to 01:00 and [conflicts_with] reports no conflict. *)
Lemma conflicts_with_counterexample :
  ~ (forall (heap : Heap) (a b : ScheduledTask),
       conflicts_with heap a b = true <-> intervals_overlap heap a b).
Proof.
  intros H. specialize (H (heap_of tasks_late) st_night_walk st_snack).
  assert (Hov : intervals_overlap (heap_of tasks_late) st_night_walk st_snack).
  { exists (23 * 60 + 30). vm_compute. repeat split; discriminate. }
  apply H in Hov. vm_compute in Hov. discriminate.
Qed.

(** C2 (amended).  For two scheduled tasks with positive durations that
    both end before midnight, [conflicts_with] holds exactly when their
    half-open intervals [[start, start + duration)] share a minute; and in
    every case two back-to-back tasks (the end time of one is the start
    of the other) do not conflict. *)
Theorem conflicts_with_within_day (heap : Heap) (a b : ScheduledTask) :
  (0 <= scheduled_time a -> 0 < duration_minutes (heap (st_task a)) ->
   scheduled_time a + duration_minutes (heap (st_task a)) < minutes_per_day ->
   0 <= scheduled_time b -> 0 < duration_minutes (heap (st_task b)) ->
   scheduled_time b + duration_minutes (heap (st_task b)) < minutes_per_day ->
   (conflicts_with heap a b = true <-> intervals_overlap heap a b))
  /\ (get_end_time heap a = scheduled_time b \/ get_end_time heap b = scheduled_time a ->
      conflicts_with heap a b = false).
Proof.
  split.
  - intros Ha0 Hda Hae Hb0 Hdb Hbe.
    unfold conflicts_with, intervals_overlap, get_end_time, add_minutes.
    rewrite !Z.mod_small by lia.
    set (sa := scheduled_time a) in *. set (sb := scheduled_time b) in *.
    set (da := duration_minutes (heap (st_task a))) in *.
    set (db := duration_minutes (heap (st_task b))) in *.
    split.
    + intros H. apply negb_true_iff, orb_false_iff in H as [H1 H2].
      apply Z.leb_gt in H1, H2. exists (Z.max sa sb). lia.
    + intros (m & Hm1 & Hm2).
      assert (E1 : (sa + da <=? sb) = false) by (apply Z.leb_gt; lia).
      assert (E2 : (sb + db <=? sa) = false) by (apply Z.leb_gt; lia).
      rewrite E1, E2. reflexivity.
  - unfold conflicts_with. intros [E|E]; rewrite E, Z.leb_refl; simpl.
    + reflexivity.
    + rewrite orb_true_r. reflexivity.
Qed.

Lemma conflicts_with_within_day_witness :
  (conflicts_with (heap_of tasks_morning) st_walk st_feed = true
   <-> intervals_overlap (heap_of tasks_morning) st_walk st_feed)
  /\ conflicts_with (heap_of tasks_morning) st_walk st_feed = true.
Proof.
  assert (I : conflicts_with (heap_of tasks_morning) st_walk st_feed = true
              <-> intervals_overlap (heap_of tasks_morning) st_walk st_feed).
  { apply (proj1 (conflicts_with_within_day (heap_of tasks_morning) st_walk st_feed));
      vm_compute; congruence. }
  split; [exact I|]. apply I. exists (6 * 60 + 15). vm_compute. repeat split; discriminate.
Defined.

(** ** C4: a candidate that does not fit is set aside *)

(** C4.  When the candidate chosen by [_select_next_task] is longer than
    the remaining budget, the iteration removes exactly that candidate
    from the pool and appends it to the unscheduled tasks, leaving the
    scheduled tasks, the cursor, the remaining budget and the order index
    unchanged, and the loop goes on with the smaller pool.  On the
    owner with budget 40 and tasks Feed(10, CRITICAL), Walk(30, HIGH),
    Groom(45, LOW) the schedule is [Feed; Walk] with total 40 and
    utilization 100, and Groom is unscheduled. *)
Theorem oversized_candidate_set_aside :
  (forall (heap : Heap) gen (s : LoopState) (x : Ref),
     select_next_task heap (available_tasks s) (current_time s) = Some x ->
     remaining_time s < duration_minutes (heap x) ->
     let s' := mkLoopState (list_remove heap x (available_tasks s)) (ls_scheduled s)
                 (ls_unscheduled s ++ [x]) (current_time s) (remaining_time s)
                 (ls_order_index s) in
     loop_step heap gen s = Some s'
     /\ Permutation (available_tasks s) (x :: available_tasks s')
     /\ (forall fuel, 0 < remaining_time s ->
           sched_loop heap gen (S fuel) s = sched_loop heap gen fuel s'))
  /\ (let r := generate_schedule (heap_of tasks_budget40) owner_budget40 date0 in
      map st_task (scheduled_tasks r) = [0%nat; 1%nat]
      /\ total_time_minutes r = 40
      /\ (utilization_percentage r == 100)%Q
      /\ unscheduled_tasks r = [2%nat]).
Proof.
  split.
  - intros heap gen s x Hsel Hlong. cbv zeta.
    assert (Hstep : loop_step heap gen s =
      Some (mkLoopState (list_remove heap x (available_tasks s)) (ls_scheduled s)
              (ls_unscheduled s ++ [x]) (current_time s) (remaining_time s) (ls_order_index s))).
    { unfold loop_step. rewrite Hsel. unfold can_fit_task.
      assert (F : (duration_minutes (heap x) <=? remaining_time s) = false)
        by (apply Z.leb_gt; lia).
      rewrite F. reflexivity. }
    split; [exact Hstep|]. split.
    + simpl. eapply list_remove_selected. exact Hsel.
    + intros fuel R. cbn [sched_loop]. apply Z.ltb_lt in R. rewrite R.
      assert (NE : negb (match available_tasks s with [] => true | _ => false end) = true).
      { destruct (available_tasks s); [unfold select_next_task in Hsel; discriminate|].
        reflexivity. }
      rewrite NE, Hstep. reflexivity.
  - vm_compute. repeat split; reflexivity.
Qed.

Lemma oversized_candidate_set_aside_witness :
  select_next_task (heap_of tasks_budget40) (available_tasks state_groom_too_long)
    (current_time state_groom_too_long) = Some 2%nat
  /\ remaining_time state_groom_too_long < duration_minutes (heap_of tasks_budget40 2%nat)
  /\ loop_step (heap_of tasks_budget40) generate_reasoning state_groom_too_long
     = Some (mkLoopState [] [] [2%nat] (6 * 60 + 10) 30 1).
Proof.
  assert (H1 : select_next_task (heap_of tasks_budget40) (available_tasks state_groom_too_long)
                 (current_time state_groom_too_long) = Some 2%nat) by reflexivity.
  assert (H2 : remaining_time state_groom_too_long
               < duration_minutes (heap_of tasks_budget40 2%nat)) by (vm_compute; reflexivity).
  split; [exact H1|]. split; [exact H2|].
  destruct (proj1 oversized_candidate_set_aside (heap_of tasks_budget40) generate_reasoning
              state_groom_too_long 2%nat H1 H2) as [E _].
  rewrite E. reflexivity.
Defined.

(** ** C6: no budget *)

(** C6.  When the budget is at most 0 and the owner has at least one
    task, nothing is scheduled, every aggregated task is unscheduled (the
    unscheduled list is a permutation of [Owner.get_all_tasks]), the total
    is 0 and the utilization is 0. *)
Theorem generate_schedule_no_budget (heap : Heap) (owner : Owner) (date : Date) :
  available_time_minutes owner <= 0 -> get_all_tasks owner <> [] ->
  let r := generate_schedule heap owner date in
  scheduled_tasks r = []
  /\ Permutation (unscheduled_tasks r) (get_all_tasks owner)
  /\ total_time_minutes r = 0
  /\ (utilization_percentage r == 0)%Q.
Proof.
  intros Hb Hne. cbv zeta. unfold generate_schedule, generate_schedule_with.
  pose proof (sorted_desc_perm (priority_key heap) (get_all_tasks owner)) as HP.
  destruct (sorted_desc (priority_key heap) (get_all_tasks owner)) as [|h t] eqn:E.
  - apply Permutation_nil in HP. contradiction.
  - replace (available_time_minutes owner <=? 0) with true by (symmetry; apply Z.leb_le; lia).
    unfold calculate_utilization, calculate_total_time. simpl.
    destruct (available_time_minutes owner =? 0); simpl.
    + repeat split; auto.
    + repeat split; auto.
Qed.

Lemma generate_schedule_no_budget_witness :
  available_time_minutes owner_no_time <= 0 /\ get_all_tasks owner_no_time <> []
  /\ scheduled_tasks (generate_schedule (heap_of tasks_budget40) owner_no_time date0) = [].
Proof.
  assert (H1 : available_time_minutes owner_no_time <= 0) by (simpl; lia).
  assert (H2 : get_all_tasks owner_no_time <> []) by (simpl; discriminate).
  split; [exact H1|]. split; [exact H2|].
  apply (generate_schedule_no_budget (heap_of tasks_budget40) owner_no_time date0 H1 H2).
Defined.

(** ** C8: marking a task complete *)

(** C8.  [mark_complete] sets the completion flag of the task and changes
    no other field and no other object.  For a [ONCE] task it returns
    nothing and allocates nothing; otherwise it returns a freshly
    allocated task with the same title, duration, priority, category,
    description and frequency and the flag false.  Pets hold their lists
    of task references outside the store, which [mark_complete] does not
    touch, and the new reference is in none of them. *)
Theorem mark_complete_next_occurrence (st : Store) (self : Ref) :
  (self < next_ref st)%nat ->
  let t := objects st self in
  let st' := fst (mark_complete self st) in
  let res := snd (mark_complete self st) in
  objects st' self = set_is_completed t true
  /\ (forall r, r <> self -> (r < next_ref st)%nat -> objects st' r = objects st r)
  /\ (frequency t = ONCE -> res = None /\ next_ref st' = next_ref st)
  /\ (frequency t <> ONCE ->
      res = Some (next_ref st)
      /\ let n := objects st' (next_ref st) in
         title n = title t /\ duration_minutes n = duration_minutes t
         /\ priority n = priority t /\ category n = category t
         /\ description n = description t /\ frequency n = frequency t
         /\ is_completed n = false)
  /\ (forall (owner : Owner) (n : Ref), res = Some n ->
        Forall (fun r => (r < next_ref st)%nat) (get_all_tasks owner) ->
        ~ In n (get_all_tasks owner)).
Proof.
  intros Hself. cbv zeta. unfold mark_complete, store_update.
  cbn [objects next_ref]. rewrite Nat.eqb_refl. unfold set_is_completed.
  cbn [frequency title duration_minutes priority category description].
  assert (Hne : Nat.eqb self (next_ref st) = false) by (apply Nat.eqb_neq; lia).
  destruct (frequency (objects st self)) eqn:Ef; cbn [frequency_eqb negb].
  - cbn [fst snd objects next_ref]. rewrite ?Nat.eqb_refl.
    repeat split; try discriminate; try contradiction.
    + intros r Hr _. apply Nat.eqb_neq in Hr. rewrite Hr. reflexivity.
  - unfold store_alloc. cbn [fst snd objects next_ref]. rewrite ?Hne, ?Nat.eqb_refl.
    repeat split; try discriminate; auto.
    + intros r Hr Hlt. assert (Hr' : Nat.eqb r (next_ref st) = false) by (apply Nat.eqb_neq; lia).
      apply Nat.eqb_neq in Hr. rewrite Hr', Hr. reflexivity.
    + intros owner n E HF Hin. injection E as <-. rewrite Forall_forall in HF.
      specialize (HF _ Hin). lia.
  - unfold store_alloc. cbn [fst snd objects next_ref]. rewrite ?Hne, ?Nat.eqb_refl.
    repeat split; try discriminate; auto.
    + intros r Hr Hlt. assert (Hr' : Nat.eqb r (next_ref st) = false) by (apply Nat.eqb_neq; lia).
      apply Nat.eqb_neq in Hr. rewrite Hr', Hr. reflexivity.
    + intros owner n E HF Hin. injection E as <-. rewrite Forall_forall in HF.
      specialize (HF _ Hin). lia.
  - unfold store_alloc. cbn [fst snd objects next_ref]. rewrite ?Hne, ?Nat.eqb_refl.
    repeat split; try discriminate; auto.
    + intros r Hr Hlt. assert (Hr' : Nat.eqb r (next_ref st) = false) by (apply Nat.eqb_neq; lia).
      apply Nat.eqb_neq in Hr. rewrite Hr', Hr. reflexivity.
    + intros owner n E HF Hin. injection E as <-. rewrite Forall_forall in HF.
      specialize (HF _ Hin). lia.
Qed.

Lemma mark_complete_next_occurrence_witness :
  (0 < next_ref store_daily_pill)%nat
  /\ snd (mark_complete 0%nat store_daily_pill) = Some 1%nat.
Proof.
  assert (H : (0 < next_ref store_daily_pill)%nat) by (simpl; lia).
  split; [exact H|].
  destruct (mark_complete_next_occurrence store_daily_pill 0%nat H) as (_ & _ & _ & H4 & _).
  apply H4. vm_compute. discriminate.
Defined.

(** ** C9: the reasoning text *)

Lemma string_append_assoc (a b c : string) :
  String.append (String.append a b) c = String.append a (String.append b c).
Proof. induction a as [|x a IH]; simpl; congruence. Qed.

Lemma list_ascii_of_string_append (a b : string) :
  list_ascii_of_string (String.append a b) = list_ascii_of_string a ++ list_ascii_of_string b.
Proof. induction a as [|x a IH]; simpl; congruence. Qed.

Lemma chosen_over_suffix (s : string) :
  ends_with_chosen_over s ->
  firstn 16 (rev (list_ascii_of_string s)) = rev (list_ascii_of_string " priority tasks.").
Proof.
  intros (pre & tiers & ->). rewrite !list_ascii_of_string_append.
  rewrite !app_assoc, rev_app_distr, firstn_app. simpl. rewrite ?app_nil_r. reflexivity.
Qed.

Lemma concat_snoc (sep x c : string) (l : list string) :
  String.concat sep (x :: l ++ [c]) = String.append (String.concat sep (x :: l)) (String.append sep c).
Proof.
  revert x. induction l as [|y l IH]; intros x; [reflexivity|].
  change (String.append x (String.append sep (String.concat sep (y :: l ++ [c])))
          = String.append (String.append x (String.append sep (String.concat sep (y :: l))))
              (String.append sep c)).
  rewrite IH, !string_append_assoc. reflexivity.
Qed.

Lemma reasoning_one_alternative (t : Task) (score : Z) (a : Task) :
  ~ ends_with_chosen_over (generate_reasoning t score [a]).
Proof.
  unfold generate_reasoning.
  destruct (priority t), (category t); intros H; apply chosen_over_suffix in H;
    vm_compute in H; discriminate.
Qed.

(** The clause names the tiers of the second and third alternatives. *)
Lemma reasoning_tiers (t : Task) (score : Z) (alts : list Task) :
  (2 <= List.length alts)%nat ->
  exists pre : string,
    generate_reasoning t score alts
    = String.append pre (String.append "chosen over "
        (String.append (String.concat ", "
                          (map (fun a => priority_name (priority a)) (firstn 2 (skipn 1 alts))))
           " priority tasks.")).
Proof.
  intros Hlen. destruct alts as [|a1 [|a2 rest]]; simpl in Hlen; try lia.
  unfold generate_reasoning.
  replace (1 <? Z.of_nat (List.length (a1 :: a2 :: rest))) with true
    by (symmetry; apply Z.ltb_lt; simpl List.length; lia).
  cbn [skipn firstn map].
  set (tiers := String.concat ", "
                  (priority_name (priority a2)
                   :: map (fun t0 => priority_name (priority t0)) (firstn 1 rest))).
  set (r1 := match priority t with
             | CRITICAL => "CRITICAL priority - must be completed"
             | HIGH => "HIGH priority task"
             | MEDIUM => "MEDIUM priority task"
             | LOW => "LOW priority task"
             end%string).
  set (r2 := match category t with
             | MEDICATION => ["medication should not be delayed"]
             | FEEDING => ["feeding is essential care"]
             | WALK => ["exercise is important for pet health"]
             | _ => []
             end%string).
  exists (String.append (String.concat ". " (r1 :: r2)) ". ").
  rewrite concat_snoc, !string_append_assoc. reflexivity.
Qed.

Lemma reasoning_two_alternatives (t : Task) (score : Z) (alts : list Task) :
  (2 <= List.length alts)%nat -> ends_with_chosen_over (generate_reasoning t score alts).
Proof.
  intros Hlen. destruct (reasoning_tiers t score alts Hlen) as [pre E].
  rewrite E. eexists; eexists. reflexivity.
Qed.

(** The alternatives passed by the loop, [available_tasks[:3]], from the
    second on: the pool entries after the first, at most 2 of them. *)
Lemma alternatives_tiers (heap : Heap) (pool : list Ref) :
  map (fun a => priority_name (priority a)) (firstn 2 (skipn 1 (map heap (firstn 3 pool))))
  = map (fun r => priority_name (priority (heap r))) (firstn 2 (tl pool)).
Proof. destruct pool as [|a [|b [|c rest]]]; reflexivity. Qed.

Lemma loop_step_erase (heap : Heap) g1 g2 (s1 s2 : LoopState) :
  erase_state s1 = erase_state s2 ->
  option_map erase_state (loop_step heap g1 s1) = option_map erase_state (loop_step heap g2 s2).
Proof.
  destruct s1 as [a1 sc1 u1 c1 r1 o1], s2 as [a2 sc2 u2 c2 r2 o2].
  unfold erase_state; cbn. intros E. injection E as <- Hsc <- <- <- <-.
  unfold loop_step; cbn [available_tasks current_time remaining_time ls_scheduled
                         ls_unscheduled ls_order_index].
  destruct (select_next_task heap a1 c1) as [x|]; [|reflexivity].
  destruct (negb (can_fit_task _ _ _)); cbn; unfold erase_state; cbn;
    rewrite ?map_app, ?Hsc; reflexivity.
Qed.

Lemma sched_loop_erase (heap : Heap) g1 g2 (fuel : nat) (s1 s2 : LoopState) :
  erase_state s1 = erase_state s2 ->
  erase_state (sched_loop heap g1 fuel s1) = erase_state (sched_loop heap g2 fuel s2).
Proof.
  revert s1 s2. induction fuel as [|fuel IH]; intros s1 s2 E; [exact E|].
  cbn [sched_loop].
  assert (Hr : remaining_time s1 = remaining_time s2)
    by (change (remaining_time (erase_state s1) = remaining_time (erase_state s2)); rewrite E; reflexivity).
  assert (Ha : available_tasks s1 = available_tasks s2)
    by (change (available_tasks (erase_state s1) = available_tasks (erase_state s2)); rewrite E; reflexivity).
  rewrite Hr, Ha.
  destruct (_ && _); [|exact E].
  pose proof (loop_step_erase heap g1 g2 s1 s2 E) as Hs.
  destruct (loop_step heap g1 s1) as [s1'|], (loop_step heap g2 s2) as [s2'|];
    cbn in Hs; try discriminate; [|exact E].
  assert (Hs' : erase_state s1' = erase_state s2') by congruence.
  apply IH, Hs'.
Qed.

Lemma total_time_erase (heap : Heap) (l : list ScheduledTask) (acc : Z) :
  fold_left (fun acc st => acc + duration_minutes (heap (st_task st))) l acc
  = fold_left (fun acc st => acc + duration_minutes (heap (st_task st))) (map erase_reasoning l) acc.
Proof. revert acc. induction l as [|x l IH]; intros acc; simpl; auto. Qed.

Lemma finalize_erase (heap : Heap) (sch1 sch2 : Schedule) (b : Z) :
  erase_schedule sch1 = erase_schedule sch2 ->
  erase_schedule (calculate_utilization (calculate_total_time heap sch1) b)
  = erase_schedule (calculate_utilization (calculate_total_time heap sch2) b).
Proof.
  destruct sch1 as [d1 sc1 u1 t1 p1], sch2 as [d2 sc2 u2 t2 p2].
  unfold erase_schedule; cbn. intros E. injection E as <- Hsc <- <- <-.
  unfold calculate_utilization, calculate_total_time; cbn.
  rewrite (total_time_erase heap sc1), (total_time_erase heap sc2), Hsc.
  destruct (b =? 0); cbn; rewrite Hsc; reflexivity.
Qed.

(** C9 (counterexample).  In the budget-40 run, Walk is scheduled in the
    second iteration with a single alternative (Groom) left in the pool,
    and its reasoning still ends with "chosen over LOW priority tasks.". *)
Lemma reasoning_chosen_over_counterexample :
  ~ (forall (heap : Heap) (s s' : LoopState) (st : ScheduledTask),
       loop_step heap generate_reasoning s = Some s' ->
       ls_scheduled s' = ls_scheduled s ++ [st] ->
       (ends_with_chosen_over (reasoning st) <-> (3 <= List.length (available_tasks s))%nat)).
Proof.
  intros H.
  destruct (loop_step (heap_of tasks_budget40) generate_reasoning state_after_feed) as [s'|] eqn:E;
    [|vm_compute in E; discriminate].
  assert (Hsc : ls_scheduled s' = ls_scheduled state_after_feed
                ++ [mkScheduledTask 1%nat (6 * 60 + 10) 1
                      "HIGH priority task. exercise is important for pet health. chosen over LOW priority tasks."]).
  { vm_compute in E. injection E as <-. vm_compute. reflexivity. }
  specialize (H _ _ _ _ E Hsc). cbn [reasoning] in H.
  assert (Hlen : List.length (available_tasks state_after_feed) = 2%nat) by (vm_compute; reflexivity).
  rewrite Hlen in H. assert (Hc : (3 <= 2)%nat); [apply (proj1 H)|lia].
  exists "HIGH priority task. exercise is important for pet health. "%string, "LOW"%string.
  reflexivity.
Qed.

(** C9 (amended).  Take a task scheduled by an iteration of the loop.
    Its reasoning ends with the "chosen over" clause if and only if the
    pool held at least 2 candidates at selection time, i.e. the selected
    task and at least 1 alternative.  The clause is then "chosen over
    T1[, T2] priority tasks.", where T1 and T2 are the priority names of
    the pool's second and third entries.  In [generate_schedule] the
    pool of every iteration is sorted by descending priority, so the
    selected task is the head of the pool.  The clause therefore names
    the tiers of the up to 2 candidates that follow the selected task.
    The reasoning method never affects the schedule: two runs with any
    two reasoning methods agree on everything but the reasoning text. *)
Theorem reasoning_chosen_over_clause :
  (forall (heap : Heap) (s s' : LoopState) (st : ScheduledTask),
     loop_step heap generate_reasoning s = Some s' ->
     ls_scheduled s' = ls_scheduled s ++ [st] ->
     (ends_with_chosen_over (reasoning st) <-> (2 <= List.length (available_tasks s))%nat)
     /\ ((2 <= List.length (available_tasks s))%nat ->
         exists pre : string,
           reasoning st
           = String.append pre (String.append "chosen over "
               (String.append
                  (String.concat ", " (map (fun r => priority_name (priority (heap r)))
                                         (firstn 2 (tl (available_tasks s)))))
                  " priority tasks.")))
     /\ (StronglySorted (desc (priority_key heap)) (available_tasks s) ->
         available_tasks s = st_task st :: tl (available_tasks s)))
  /\ (forall (heap : Heap) (owner : Owner) (fuel : nat),
        StronglySorted (desc (priority_key heap))
          (available_tasks (sched_loop heap generate_reasoning fuel
             (initial_state (sorted_desc (priority_key heap) (get_all_tasks owner))
                (available_time_minutes owner)))))
  /\ (forall (heap : Heap) (g1 g2 : Task -> Z -> list Task -> string) (owner : Owner) (date : Date),
        erase_schedule (generate_schedule_with heap g1 owner date)
        = erase_schedule (generate_schedule_with heap g2 owner date)).
Proof.
  split; [|split].
  - intros heap s s' st Hstep Hsc. unfold loop_step in Hstep.
    destruct (select_next_task heap (available_tasks s) (current_time s)) as [x|] eqn:Hsel;
      [|discriminate].
    destruct (negb (can_fit_task _ _ _)); injection Hstep as <-; cbn [ls_scheduled] in Hsc.
    + exfalso. apply (f_equal (@List.length ScheduledTask)) in Hsc.
      rewrite length_app in Hsc. cbn in Hsc. lia.
    + apply app_inv_head in Hsc. injection Hsc as <-. cbn [reasoning st_task].
      split; [|split].
      * destruct (available_tasks s) as [|a [|b rest]] eqn:Ha.
        -- discriminate.
        -- cbn [firstn map List.length].
           split; [intros H; exfalso; exact (reasoning_one_alternative _ _ _ H)|lia].
        -- split; [intros _; cbn [List.length]; lia|]. intros _. apply reasoning_two_alternatives.
           cbn [firstn map List.length]. destruct rest; cbn; lia.
      * intros Hlen. rewrite <- alternatives_tiers. apply reasoning_tiers.
        rewrite length_map, length_firstn. lia.
      * intros HS. destruct (available_tasks s) as [|h t] eqn:Ha; [discriminate|].
        rewrite (select_sorted heap _ h t HS) in Hsel. injection Hsel as ->. reflexivity.
  - intros heap owner fuel.
    apply (sched_loop_invariant heap generate_reasoning (fun _ => True)); auto.
    apply sorted_desc_sorted.
  - intros heap g1 g2 owner date. unfold generate_schedule_with.
    destruct (sorted_desc _ _) as [|a l]; [reflexivity|].
    destruct (available_time_minutes owner <=? 0); apply finalize_erase; [reflexivity|].
    remember (sched_loop heap g1 (List.length (a :: l))
                (mkLoopState (a :: l) [] [] (6 * 60) (available_time_minutes owner) 0)) as X eqn:HX.
    remember (sched_loop heap g2 (List.length (a :: l))
                (mkLoopState (a :: l) [] [] (6 * 60) (available_time_minutes owner) 0)) as Y eqn:HY.
    assert (E : erase_state X = erase_state Y) by (subst; apply sched_loop_erase; reflexivity).
    clear HX HY. destruct X, Y.
    unfold erase_state in E; cbn in E. injection E as Ha Hsc Hu _ _ _.
    unfold erase_schedule; cbn.
    rewrite Ha, Hsc, Hu. reflexivity.
Qed.

Lemma reasoning_chosen_over_clause_witness :
  exists pre : string,
    reasoning (last (ls_scheduled (match loop_step (heap_of tasks_budget40) generate_reasoning
                                           state_after_feed with
                                     | Some s' => s' | None => state_after_feed end))
                    (mkScheduledTask 0%nat 0 0 ""))
    = String.append pre (String.append "chosen over " (String.append "LOW" " priority tasks.")).
Proof.
  destruct (proj1 (proj2 (proj1 reasoning_chosen_over_clause (heap_of tasks_budget40) state_after_feed
           (match loop_step (heap_of tasks_budget40) generate_reasoning state_after_feed with
            | Some s' => s' | None => state_after_feed end)
           (last (ls_scheduled (match loop_step (heap_of tasks_budget40) generate_reasoning
                                        state_after_feed with
                                  | Some s' => s' | None => state_after_feed end))
                 (mkScheduledTask 0%nat 0 0 ""))
           ltac:(vm_compute; reflexivity) ltac:(vm_compute; reflexivity)))
           ltac:(vm_compute; lia)) as [pre E].
  exists pre. rewrite E. reflexivity.
Defined.

(** * Further properties of the Pet, Owner and Schedule operations *)

(** ** Sorting by a key, in either direction *)

Lemma insert_asc_as_desc {A} (key : A -> Z) (x : A) (l : list A) :
  insert_asc key x l = insert_desc (fun a => - key a) x l.
Proof.
  induction l as [|y l IH]; simpl; [reflexivity|].
  replace (- key x <=? - key y) with (key y <=? key x)
    by (destruct (Z.leb_spec (key y) (key x)), (Z.leb_spec (- key x) (- key y)); lia).
  rewrite IH. reflexivity.
Qed.

Lemma sorted_asc_as_desc {A} (key : A -> Z) (xs : list A) :
  sorted_asc key xs = sorted_desc (fun a => - key a) xs.
Proof.
  unfold sorted_asc, sorted_desc. generalize (@nil A). induction xs as [|x xs IH]; intros acc;
    simpl; [reflexivity|]. rewrite insert_asc_as_desc. apply IH.
Qed.

Lemma StronglySorted_map_key {A} (R : Z -> Z -> Prop) (f : A -> Z) (l : list A) :
  StronglySorted (fun a b => R (f a) (f b)) l -> StronglySorted R (map f l).
Proof.
  induction 1 as [|a l _ IH HF]; simpl; constructor; auto.
  rewrite Forall_forall in *. intros y Hy. apply in_map_iff in Hy.
  destruct Hy as (b & <- & Hb). auto.
Qed.

Lemma StronglySorted_weaken {A} (R S : A -> A -> Prop) (l : list A) :
  (forall a b, R a b -> S a b) -> StronglySorted R l -> StronglySorted S l.
Proof.
  intros HRS. induction 1 as [|a l _ IH HF]; constructor; auto.
  exact (Forall_impl _ (HRS a) HF).
Qed.

(** What [sorted(xs, key=key, reverse=reverse)] returns: the same
    elements, ordered by key in the requested direction, and stable. *)
Lemma sorted_by_spec {A} (key : A -> Z) (reverse : bool) (xs : list A) :
  let ys := sorted_by key reverse xs in
  Permutation ys xs
  /\ Sorted (fun a b => if reverse then b <= a else a <= b) (map key ys)
  /\ (forall k, filter (fun r => key r =? k) ys = filter (fun r => key r =? k) xs).
Proof.
  cbv zeta. unfold sorted_by. destruct reverse.
  - split; [apply sorted_desc_perm|]. split; [|intros k; apply filter_sorted_desc].
    apply StronglySorted_Sorted, StronglySorted_map_key, sorted_desc_sorted.
  - rewrite sorted_asc_as_desc. split; [apply sorted_desc_perm|]. split.
    + apply StronglySorted_Sorted, StronglySorted_map_key.
      eapply StronglySorted_weaken; [|apply sorted_desc_sorted].
      intros a b H. unfold desc in H. cbn beta. lia.
    + intros k.
      assert (E : forall r, (key r =? k) = (- key r =? - k))
        by (intros r; destruct (Z.eqb_spec (- key r) (- k)), (Z.eqb_spec (key r) k); lia).
      rewrite !(filter_ext (fun r => key r =? k) (fun r => - key r =? - k) E).
      apply filter_sorted_desc.
Qed.

(** X1.  [Owner.get_tasks_sorted_by_time] and
    [Owner.get_tasks_sorted_by_priority] reorder the owner's tasks:
    ascending by duration, resp. descending by priority, and tasks with
    the same duration, resp. priority, keep the order of
    [get_all_tasks]. *)
Theorem owner_sorted_views (heap : Heap) (owner : Owner) :
  (Permutation (get_tasks_sorted_by_time heap owner) (get_all_tasks owner)
   /\ Sorted Z.le (map (duration_key heap) (get_tasks_sorted_by_time heap owner))
   /\ forall d, filter (fun r => duration_key heap r =? d) (get_tasks_sorted_by_time heap owner)
                = filter (fun r => duration_key heap r =? d) (get_all_tasks owner))
  /\ (Permutation (get_tasks_sorted_by_priority heap owner) (get_all_tasks owner)
      /\ Sorted (fun a b => b <= a) (map (priority_key heap) (get_tasks_sorted_by_priority heap owner))
      /\ forall k, filter (fun r => priority_key heap r =? k) (get_tasks_sorted_by_priority heap owner)
                   = filter (fun r => priority_key heap r =? k) (get_all_tasks owner)).
Proof.
  destruct (sorted_by_spec (duration_key heap) false (get_all_tasks owner)) as (P1 & S1 & F1).
  destruct (sorted_by_spec (priority_key heap) true (get_all_tasks owner)) as (P2 & S2 & F2).
  split; (split; [assumption|split; [|assumption]]).
  - exact S1.
  - exact S2.
Qed.

(** X2.  [Pet.sort_tasks_by_time] and [Pet.sort_tasks_by_priority], for either
    value of [reverse]: the pet's tasks, ordered by the key in the
    requested direction, equal keys in the pet's order. *)
Theorem pet_sorted_views (heap : Heap) (p : Pet) (reverse : bool) :
  (Permutation (Pet_sort_tasks_by_time heap p reverse) (pet_tasks p)
   /\ Sorted (fun a b => if reverse then b <= a else a <= b)
        (map (duration_key heap) (Pet_sort_tasks_by_time heap p reverse))
   /\ forall d, filter (fun r => duration_key heap r =? d) (Pet_sort_tasks_by_time heap p reverse)
                = filter (fun r => duration_key heap r =? d) (pet_tasks p))
  /\ (Permutation (Pet_sort_tasks_by_priority heap p reverse) (pet_tasks p)
      /\ Sorted (fun a b => if reverse then b <= a else a <= b)
           (map (priority_key heap) (Pet_sort_tasks_by_priority heap p reverse))
      /\ forall k, filter (fun r => priority_key heap r =? k) (Pet_sort_tasks_by_priority heap p reverse)
                   = filter (fun r => priority_key heap r =? k) (pet_tasks p)).
Proof.
  split; apply sorted_by_spec.
Qed.

(** ** Adding and removing a pet's tasks *)

Lemma task_eqb_true (a b : Task) : task_eqb a b = true <-> a = b.
Proof.
  split.
  - destruct a as [t1 d1 p1 c1 s1 f1 b1], b as [t2 d2 p2 c2 s2 f2 b2].
    unfold task_eqb; cbn. rewrite !andb_true_iff.
    intros ((((((Ht & Hd) & Hp) & Hc) & Hs) & Hf) & Hb).
    apply String.eqb_eq in Ht, Hs. apply Z.eqb_eq in Hd. apply Bool.eqb_prop in Hb.
    unfold priority_eqb in Hp. apply Z.eqb_eq in Hp.
    destruct p1, p2; try discriminate; destruct c1, c2; try discriminate;
      destruct f1, f2; try discriminate; subst; reflexivity.
  - intros <-. destruct a as [t d p c s f b]. unfold task_eqb; cbn.
    rewrite !String.eqb_refl, Z.eqb_refl. unfold priority_eqb. rewrite Z.eqb_refl.
    destruct c, f, b; reflexivity.
Qed.

(** The matching test of [in] and [list.remove] for [r]. *)
Lemma task_match_iff (heap : Heap) (x r : Ref) :
  (Nat.eqb x r || task_eqb (heap x) (heap r)) = true <-> x = r \/ heap x = heap r.
Proof. rewrite orb_true_iff, Nat.eqb_eq, task_eqb_true. reflexivity. Qed.

Lemma list_remove_no_match (heap : Heap) (r : Ref) (l : list Ref) :
  (forall x, In x l -> x <> r /\ heap x <> heap r) -> list_remove heap r l = l.
Proof.
  induction l as [|x l IH]; intros H; simpl; [reflexivity|].
  destruct (Nat.eqb x r || task_eqb (heap x) (heap r)) eqn:E.
  - apply task_match_iff in E. destruct (H x (or_introl eq_refl)) as [H1 H2].
    destruct E; contradiction.
  - rewrite IH; [reflexivity|]. intros y Hy. apply H. right. exact Hy.
Qed.

Lemma list_remove_first_match (heap : Heap) (r : Ref) (pre post : list Ref) (e : Ref) :
  Forall (fun x => x <> r /\ heap x <> heap r) pre -> (e = r \/ heap e = heap r) ->
  list_remove heap r (pre ++ e :: post) = pre ++ post.
Proof.
  intros Hpre He. induction Hpre as [|x pre [H1 H2] _ IH]; simpl.
  - apply task_match_iff in He. rewrite He. reflexivity.
  - destruct (Nat.eqb x r || task_eqb (heap x) (heap r)) eqn:E.
    + apply task_match_iff in E. destruct E; contradiction.
    + rewrite IH. reflexivity.
Qed.

Lemma task_in_false (heap : Heap) (r : Ref) (l : list Ref) :
  (forall x, In x l -> x <> r /\ heap x <> heap r) -> task_in heap r l = false.
Proof.
  intros H. unfold task_in. apply not_true_iff_false. rewrite existsb_exists.
  intros (x & Hx & E). apply task_match_iff in E. destruct (H x Hx) as [H1 H2].
  destruct E; contradiction.
Qed.

(** X3.  [Pet.remove_task(task)] removes exactly one entry, the first task of
    the pet that is [task] itself or equal to it field by field (which can
    be another object than [task]); when there is none, the pet is left
    unchanged and no error is raised. *)
Theorem Pet_remove_task_first_match (heap : Heap) (p : Pet) (r : Ref) :
  (forall pre e post,
     pet_tasks p = pre ++ e :: post ->
     Forall (fun x => x <> r /\ heap x <> heap r) pre ->
     e = r \/ heap e = heap r ->
     Pet_remove_task heap p r = mkPet (pet_name p) (species p) (pre ++ post))
  /\ ((forall x, In x (pet_tasks p) -> x <> r /\ heap x <> heap r) ->
      Pet_remove_task heap p r = p).
Proof.
  split.
  - intros pre e post Hp Hpre He. unfold Pet_remove_task.
    assert (Hin : task_in heap r (pet_tasks p) = true).
    { unfold task_in. apply existsb_exists. exists e. split.
      - rewrite Hp. apply in_or_app. right. left. reflexivity.
      - apply task_match_iff. exact He. }
    rewrite Hin, Hp, list_remove_first_match by assumption. reflexivity.
  - intros H. unfold Pet_remove_task. rewrite task_in_false by exact H. reflexivity.
Qed.

(** Two equal feeding tasks, objects 0 and 1, of one pet. *)
Lemma Pet_remove_task_first_match_witness :
  Pet_remove_task (heap_of [Task_init "Feed" 10 CRITICAL FEEDING "" None false;
                            Task_init "Feed" 10 CRITICAL FEEDING "" None false])
    (mkPet "Mochi" "dog" [0%nat; 1%nat]) 1%nat
  = mkPet "Mochi" "dog" [1%nat].
Proof.
  apply (proj1 (Pet_remove_task_first_match _ (mkPet "Mochi" "dog" [0%nat; 1%nat]) 1%nat)
           [] 0%nat [1%nat]).
  - reflexivity.
  - constructor.
  - right. reflexivity.
Defined.

(** X4.  [Pet.add_task(task)] followed by [Pet.remove_task(task)] gives back
    the pet when it held no task equal to [task]. *)
Theorem Pet_add_remove_task (heap : Heap) (p : Pet) (r : Ref) :
  (forall x, In x (pet_tasks p) -> x <> r /\ heap x <> heap r) ->
  Pet_remove_task heap (Pet_add_task p r) r = p.
Proof.
  intros H. destruct p as [n sp l]. cbn in H.
  destruct (Pet_remove_task_first_match heap (Pet_add_task (mkPet n sp l) r) r) as [H1 _].
  rewrite (H1 l r []); [cbn; rewrite app_nil_r; reflexivity|reflexivity| |left; reflexivity].
  apply Forall_forall. exact H.
Qed.

Lemma Pet_add_remove_task_witness :
  Pet_remove_task (heap_of tasks_morning) (Pet_add_task (mkPet "Mochi" "dog" [0%nat]) 1%nat) 1%nat
  = mkPet "Mochi" "dog" [0%nat].
Proof.
  apply Pet_add_remove_task. intros x [<-|[]]. split; [discriminate|].
  vm_compute. discriminate.
Defined.

(** ** The owner's views over all pets *)

Lemma get_all_tasks_flat_map (o : Owner) :
  get_all_tasks o = flat_map pet_tasks (pets o).
Proof.
  unfold get_all_tasks.
  assert (G : forall ps acc, fold_left (fun all_tasks pet => all_tasks ++ pet_tasks pet) ps acc
                             = acc ++ flat_map pet_tasks ps).
  { induction ps as [|p ps IH]; intros acc; simpl; [rewrite app_nil_r; reflexivity|].
    rewrite IH, app_assoc. reflexivity. }
  apply G.
Qed.

Lemma filter_flat_map_tasks (f : Ref -> bool) (ps : list Pet) :
  filter f (flat_map pet_tasks ps) = flat_map (fun p => filter f (pet_tasks p)) ps.
Proof. induction ps as [|p ps IH]; simpl; [reflexivity|]. rewrite filter_app, IH. reflexivity. Qed.

(** X5.  The owner's filtered task lists are the pets' lists put together, pet
    by pet: [Owner.get_incomplete_tasks] is the concatenation of every
    pet's [get_incomplete_tasks], and collecting [get_tasks_by_category]
    or [get_tasks_by_priority] over the pets (as [main.py] does for walks)
    gives the owner's tasks of that category or priority, in
    [get_all_tasks] order. *)
Theorem owner_filters_by_pet (heap : Heap) (o : Owner) :
  Owner_get_incomplete_tasks heap o = flat_map (Pet_get_incomplete_tasks heap) (pets o)
  /\ (forall c, flat_map (fun p => Pet_get_tasks_by_category heap p c) (pets o)
                = filter (fun r => category_eqb (category (heap r)) c) (get_all_tasks o))
  /\ (forall prio, flat_map (fun p => Pet_get_tasks_by_priority heap p prio) (pets o)
                   = filter (fun r => priority_eqb (priority (heap r)) prio) (get_all_tasks o)).
Proof.
  unfold Owner_get_incomplete_tasks. rewrite !get_all_tasks_flat_map. split; [|split].
  - unfold Pet_get_incomplete_tasks, Pet_get_tasks_by_completion.
    rewrite filter_flat_map_tasks. apply flat_map_ext. intros p. apply filter_ext.
    intros r. destruct (is_completed (heap r)); reflexivity.
  - intros c. rewrite filter_flat_map_tasks. reflexivity.
  - intros prio. rewrite filter_flat_map_tasks. reflexivity.
Qed.

(** X6.  [Pet.get_tasks_by_completion(True)] and [get_tasks_by_completion(False)]
    (that is, [get_incomplete_tasks]) split the pet's tasks: together they
    are the pet's tasks, each one in exactly one of the two lists. *)
Theorem Pet_completion_partition (heap : Heap) (p : Pet) :
  Permutation (Pet_get_tasks_by_completion heap p true ++ Pet_get_incomplete_tasks heap p)
              (pet_tasks p)
  /\ (forall r, In r (Pet_get_tasks_by_completion heap p true) ->
                ~ In r (Pet_get_incomplete_tasks heap p)).
Proof.
  unfold Pet_get_incomplete_tasks, Pet_get_tasks_by_completion. split.
  - induction (pet_tasks p) as [|x l IH]; simpl; [reflexivity|].
    destruct (is_completed (heap x)); simpl.
    + apply perm_skip, IH.
    + eapply perm_trans; [apply Permutation_sym, Permutation_middle|]. apply perm_skip, IH.
  - intros r H1 H2. apply filter_In in H1, H2. destruct H1 as [_ H1], H2 as [_ H2].
    destruct (is_completed (heap r)); discriminate.
Qed.

Lemma fold_left_durations (heap : Heap) (l : list Ref) (acc : Z) :
  fold_left (fun acc r => acc + duration_minutes (heap r)) l acc
  = acc + fold_right (fun r s => duration_minutes (heap r) + s) 0 l.
Proof. revert acc. induction l as [|x l IH]; intros acc; simpl; [lia|]. rewrite IH. lia. Qed.

Lemma fold_right_durations_perm (heap : Heap) (l1 l2 : list Ref) :
  Permutation l1 l2 ->
  fold_right (fun r s => duration_minutes (heap r) + s) 0 l1
  = fold_right (fun r s => duration_minutes (heap r) + s) 0 l2.
Proof. induction 1; simpl; lia. Qed.

Lemma fold_right_durations_app (heap : Heap) (l1 l2 : list Ref) :
  fold_right (fun r s => duration_minutes (heap r) + s) 0 (l1 ++ l2)
  = fold_right (fun r s => duration_minutes (heap r) + s) 0 l1
    + fold_right (fun r s => duration_minutes (heap r) + s) 0 l2.
Proof. induction l1 as [|x l1 IH]; simpl; lia. Qed.

(** X7.  [Owner.add_pet]: the new pet's tasks come last in [get_all_tasks],
    and [calculate_total_task_time] grows by their durations. *)
Theorem Owner_add_pet_tasks (heap : Heap) (o : Owner) (p : Pet) :
  get_all_tasks (Owner_add_pet o p) = get_all_tasks o ++ pet_tasks p
  /\ calculate_total_task_time heap (Owner_add_pet o p)
     = calculate_total_task_time heap o
       + fold_left (fun acc r => acc + duration_minutes (heap r)) (pet_tasks p) 0.
Proof.
  assert (E : get_all_tasks (Owner_add_pet o p) = get_all_tasks o ++ pet_tasks p).
  { unfold get_all_tasks, Owner_add_pet. cbn [pets]. rewrite fold_left_app. reflexivity. }
  split; [exact E|]. unfold calculate_total_task_time. rewrite E, fold_left_app.
  rewrite !fold_left_durations. lia.
Qed.

(** ** Time accounting of a generated schedule *)

Lemma fold_left_scheduled (heap : Heap) (l : list ScheduledTask) (acc : Z) :
  fold_left (fun acc st => acc + duration_minutes (heap (st_task st))) l acc
  = acc + sum_durations heap l.
Proof. revert acc. induction l as [|x l IH]; intros acc; simpl; [lia|]. rewrite IH. lia. Qed.

Lemma generate_schedule_total (heap : Heap) gen (owner : Owner) (date : Date) :
  total_time_minutes (generate_schedule_with heap gen owner date)
  = sum_durations heap (scheduled_tasks (generate_schedule_with heap gen owner date)).
Proof.
  unfold generate_schedule_with.
  destruct (sorted_desc (priority_key heap) (get_all_tasks owner)); [reflexivity|].
  destruct (available_time_minutes owner <=? 0);
    unfold calculate_utilization; destruct (available_time_minutes owner =? 0);
    cbn [total_time_minutes scheduled_tasks calculate_total_time];
    rewrite fold_left_scheduled; reflexivity.
Qed.

Lemma generate_schedule_perm (heap : Heap) gen (owner : Owner) (date : Date) :
  let r := generate_schedule_with heap gen owner date in
  Permutation (map st_task (scheduled_tasks r) ++ unscheduled_tasks r) (get_all_tasks owner).
Proof.
  cbv zeta. eapply perm_trans; [|apply (sorted_desc_perm (priority_key heap))].
  destruct (generate_schedule_lists heap gen owner date) as [[-> ->]|[_ [-> ->]]];
    [reflexivity|].
  apply sched_loop_partition; [apply sorted_desc_sorted|]. simpl. reflexivity.
Qed.

Lemma sum_durations_map (heap : Heap) (l : list ScheduledTask) :
  sum_durations heap l = fold_right (fun r s => duration_minutes (heap r) + s) 0 (map st_task l).
Proof. induction l as [|x l IH]; simpl; [reflexivity|]. rewrite <- IH. reflexivity. Qed.

(** X8.  [Owner.calculate_total_task_time] is the schedule's
    [total_time_minutes] plus the durations of the unscheduled tasks: no
    task is counted twice or lost. *)
Theorem total_task_time_split (heap : Heap) (owner : Owner) (date : Date) :
  let r := generate_schedule heap owner date in
  calculate_total_task_time heap owner
  = total_time_minutes r
    + fold_left (fun acc t => acc + duration_minutes (heap t)) (unscheduled_tasks r) 0.
Proof.
  cbv zeta. unfold generate_schedule. rewrite generate_schedule_total.
  unfold calculate_total_task_time. rewrite !fold_left_durations, sum_durations_map.
  rewrite <- (fold_right_durations_perm heap _ _
               (generate_schedule_perm heap generate_reasoning owner date)).
  rewrite fold_right_durations_app. lia.
Qed.

Definition budget_invariant (heap : Heap) (budget : Z) (s : LoopState) : Prop :=
  sum_durations heap (ls_scheduled s) + remaining_time s = budget /\ 0 <= remaining_time s.

Lemma sched_loop_budget (heap : Heap) gen (budget : Z) (fuel : nat) (s0 : LoopState) :
  StronglySorted (desc (priority_key heap)) (available_tasks s0) ->
  budget_invariant heap budget s0 ->
  budget_invariant heap budget (sched_loop heap gen fuel s0).
Proof.
  intros Hsorted Hinit. apply (sched_loop_invariant heap gen (budget_invariant heap budget)); auto.
  loop_step_cases.
  - unfold can_fit_task in F. apply Z.leb_le in F. destruct HP as [HP1 HP2].
    unfold budget_invariant. cbn [ls_scheduled remaining_time].
    rewrite sum_durations_app. unfold sum_durations at 2. cbn. lia.
  - exact HP.
Qed.

(** X9.  For a positive budget, the schedule's [total_time_minutes] is at
    most the owner's [available_time_minutes]; for a budget of at most 0
    it is 0.  This holds whatever the durations. *)
Theorem total_time_within_budget (heap : Heap) (owner : Owner) (date : Date) :
  let total := total_time_minutes (generate_schedule heap owner date) in
  (0 < available_time_minutes owner -> total <= available_time_minutes owner)
  /\ (available_time_minutes owner <= 0 -> total = 0).
Proof.
  cbv zeta. unfold generate_schedule. rewrite generate_schedule_total.
  destruct (generate_schedule_lists heap generate_reasoning owner date) as [[-> _]|[Hb [-> _]]].
  - cbn. lia.
  - set (available := sorted_desc (priority_key heap) (get_all_tasks owner)).
    destruct (sched_loop_budget heap generate_reasoning (available_time_minutes owner)
                (List.length available) (initial_state available (available_time_minutes owner)))
      as [H1 H2].
    + apply sorted_desc_sorted.
    + unfold budget_invariant. cbn. lia.
    + lia.
Qed.

Lemma total_time_within_budget_witness :
  total_time_minutes (generate_schedule (heap_of tasks_budget40) owner_budget40 date0) <= 40
  /\ total_time_minutes (generate_schedule (heap_of tasks_budget40) owner_no_time date0) = 0.
Proof.
  split.
  - apply (proj1 (total_time_within_budget (heap_of tasks_budget40) owner_budget40 date0)).
    vm_compute. reflexivity.
  - apply (proj2 (total_time_within_budget (heap_of tasks_budget40) owner_no_time date0)).
    vm_compute. discriminate.
Defined.

(** ** When every task fits *)




(** ** Validation and conflict reports *)

Lemma conflicts_with_sym (heap : Heap) (a b : ScheduledTask) :
  conflicts_with heap a b = conflicts_with heap b a.
Proof. unfold conflicts_with. rewrite orb_comm. reflexivity. Qed.

Lemma forallb_perm {A} (f : A -> bool) (l1 l2 : list A) :
  Permutation l1 l2 -> forallb f l1 = forallb f l2.
Proof.
  induction 1; simpl; try congruence.
  rewrite !andb_assoc, (andb_comm (f y)). reflexivity.
Qed.

Lemma flat_map_conflicts_nil (heap : Heap) (a : ScheduledTask) (l : list ScheduledTask) :
  flat_map (fun task2 => if conflicts_with heap a task2 then [conflict_entry heap a task2] else []) l = []
  <-> forallb (fun task2 => negb (conflicts_with heap a task2)) l = true.
Proof.
  induction l as [|b l IH]; simpl; [tauto|].
  destruct (conflicts_with heap a b); simpl; [split; discriminate|exact IH].
Qed.

(** X12.  [Schedule.detect_conflicts] reports nothing exactly when
    [Schedule.validate] accepts the schedule. *)
Theorem detect_conflicts_iff_validate (heap : Heap) (l : list ScheduledTask) :
  detect_conflicts heap l = [] <-> validate heap l = true.
Proof.
  induction l as [|a l IH]; simpl; [tauto|].
  rewrite andb_true_iff, <- IH, <- flat_map_conflicts_nil.
  split; [intros H; apply app_eq_nil in H; exact H|intros [-> ->]; reflexivity].
Qed.

(** X13.  A generated schedule that stays within the day (budget at most 1080
    minutes from the 06:00 start, durations not negative) has no conflict
    to report. *)
Theorem generate_schedule_no_conflicts (heap : Heap) (owner : Owner) (date : Date) :
  available_time_minutes owner <= 1080 ->
  (forall r, In r (get_all_tasks owner) -> 0 <= duration_minutes (heap r)) ->
  detect_conflicts heap (scheduled_tasks (generate_schedule heap owner date)) = [].
Proof.
  intros Hb Hdur. apply detect_conflicts_iff_validate. unfold generate_schedule.
  destruct (generate_schedule_lists heap generate_reasoning owner date) as [[-> _]|[_ [-> _]]];
    [reflexivity|].
  set (available := sorted_desc (priority_key heap) (get_all_tasks owner)).
  assert (Hinv : within_day_invariant heap (available_time_minutes owner)
    (sched_loop heap generate_reasoning (List.length available)
       (initial_state available (available_time_minutes owner)))).
  { apply sched_loop_within_day; auto.
    - apply sorted_desc_sorted.
    - unfold within_day_invariant. simpl. repeat split; try lia; try constructor.
      apply Forall_forall. intros r Hr. apply Hdur.
      eapply Permutation_in; [apply sorted_desc_perm|exact Hr]. }
  destruct Hinv as (_ & _ & _ & Hord & _). apply validate_ordered. exact Hord.
Qed.

Lemma generate_schedule_no_conflicts_witness :
  detect_conflicts (heap_of tasks_budget40)
    (scheduled_tasks (generate_schedule (heap_of tasks_budget40) owner_budget40 date0)) = [].
Proof.
  apply generate_schedule_no_conflicts.
  - vm_compute. discriminate.
  - intros r Hr. vm_compute in Hr. destruct Hr as [<-|[<-|[<-|[]]]]; vm_compute; discriminate.
Defined.

(** ** The explanation text *)

(** X14.  [Schedule.generate_explanation] of a generated schedule is
    ["No tasks to schedule."] exactly when the owner's pets have no
    tasks; as soon as there is a task, it starts with ["Scheduled "]. *)
Theorem generate_explanation_no_tasks (heap : Heap) (str_float : Q -> string)
    (owner : Owner) (date : Date) :
  generate_explanation heap str_float (generate_schedule heap owner date) = "No tasks to schedule."%string
  <-> get_all_tasks owner = [].
Proof.
  split.
  - intros H. destruct (get_all_tasks owner) as [|x l] eqn:E; [reflexivity|exfalso].
    pose proof (generate_schedule_perm heap generate_reasoning owner date) as HP.
    cbv zeta in HP. rewrite E in HP. fold (generate_schedule heap owner date) in HP.
    revert H HP. unfold generate_explanation.
    destruct (scheduled_tasks (generate_schedule heap owner date)) as [|a sc];
      destruct (unscheduled_tasks (generate_schedule heap owner date)) as [|b un];
      cbn; intros H HP; try discriminate.
    apply Permutation_nil in HP. discriminate.
  - intros E. unfold generate_schedule, generate_schedule_with. rewrite E. reflexivity.
Qed.

(** ** Completion flags *)

Lemma mark_complete_objects (st : Store) (self : Ref) :
  (self < next_ref st)%nat ->
  let st' := fst (mark_complete self st) in
  objects st' self = set_is_completed (objects st self) true
  /\ (forall r, r <> self -> (r < next_ref st)%nat -> objects st' r = objects st r).
Proof.
  intros Hself. cbv zeta. unfold mark_complete, store_update.
  cbn [objects next_ref]. rewrite Nat.eqb_refl.
  destruct (negb (frequency_eqb _ ONCE)); unfold store_alloc; cbn [fst objects next_ref].
  - replace (Nat.eqb self (next_ref st)) with false by (symmetry; apply Nat.eqb_neq; lia).
    rewrite Nat.eqb_refl. split; [reflexivity|].
    intros r H1 H2. apply Nat.eqb_neq in H1.
    replace (Nat.eqb r (next_ref st)) with false by (symmetry; apply Nat.eqb_neq; lia).
    rewrite H1. reflexivity.
  - rewrite Nat.eqb_refl. split; [reflexivity|].
    intros r H1 _. apply Nat.eqb_neq in H1. rewrite H1. reflexivity.
Qed.

(** X15.  [Task.mark_complete] on one of the owner's tasks takes exactly that
    task out of [Owner.get_incomplete_tasks] and leaves
    [Owner.calculate_total_task_time] unchanged (the next occurrence it
    returns belongs to no pet until it is added). *)
Theorem mark_complete_owner_views (st : Store) (self : Ref) (o : Owner) :
  (self < next_ref st)%nat ->
  Forall (fun r => (r < next_ref st)%nat) (get_all_tasks o) ->
  let st' := fst (mark_complete self st) in
  Owner_get_incomplete_tasks (objects st') o
  = filter (fun r => negb (Nat.eqb r self)) (Owner_get_incomplete_tasks (objects st) o)
  /\ calculate_total_task_time (objects st') o = calculate_total_task_time (objects st) o.
Proof.
  intros Hself Hall. cbv zeta.
  destruct (mark_complete_objects st self Hself) as [Hs Ho].
  unfold Owner_get_incomplete_tasks, calculate_total_task_time.
  induction Hall as [|r l Hr Hl IH]; [split; reflexivity|].
  destruct IH as [IH1 IH2]. split.
  - cbn [filter]. destruct (Nat.eqb_spec r self) as [->|Hne].
    + rewrite Hs. cbn [set_is_completed is_completed negb].
      destruct (is_completed (objects st self)); cbn; rewrite ?Nat.eqb_refl; exact IH1.
    + rewrite (Ho r Hne Hr). destruct (negb (is_completed (objects st r))); cbn;
        [apply Nat.eqb_neq in Hne; rewrite Hne; cbn; f_equal|]; exact IH1.
  - cbn [fold_left]. rewrite !fold_left_durations in *.
    assert (E : duration_minutes (objects (fst (mark_complete self st)) r)
                = duration_minutes (objects st r)).
    { destruct (Nat.eqb_spec r self) as [->|Hne]; [rewrite Hs; reflexivity|].
      rewrite (Ho r Hne Hr). reflexivity. }
    lia.
Qed.

Lemma mark_complete_owner_views_witness :
  Owner_get_incomplete_tasks (objects (fst (mark_complete 0%nat store_daily_pill)))
    (mkOwner "Jordan" 30 [mkPet "Mochi" "dog" [0%nat]]) = [].
Proof.
  rewrite (proj1 (mark_complete_owner_views store_daily_pill 0%nat
                    (mkOwner "Jordan" 30 [mkPet "Mochi" "dog" [0%nat]])
                    ltac:(vm_compute; lia) ltac:(vm_compute; repeat constructor))).
  vm_compute. reflexivity.
Defined.

Lemma sorted_desc_ext {A} (k1 k2 : A -> Z) (xs : list A) :
  (forall x, k1 x = k2 x) -> sorted_desc k1 xs = sorted_desc k2 xs.
Proof.
  intros Hk. unfold sorted_desc.
  assert (I : forall x l, insert_desc k1 x l = insert_desc k2 x l).
  { intros x l. induction l as [|y l IH]; simpl; [reflexivity|]. rewrite !Hk, IH. reflexivity. }
  generalize (@nil A). induction xs as [|x xs IH]; intros acc; simpl; [reflexivity|].
  rewrite I. apply IH.
Qed.

Lemma generate_reasoning_priorities (t t' : Task) (score : Z) (a a' : list Task) :
  priority t = priority t' -> category t = category t' -> map priority a = map priority a' ->
  generate_reasoning t score a = generate_reasoning t' score a'.
Proof.
  intros Hp Hc Hm.
  assert (L : List.length a = List.length a')
    by (rewrite <- (length_map priority a), <- (length_map priority a'), Hm; reflexivity).
  assert (M : forall l, map (fun t0 => priority_name (priority t0)) l
                        = map priority_name (map priority l))
    by (intros l; rewrite map_map; reflexivity).
  unfold generate_reasoning. rewrite Hp, Hc, L, !M, <- !firstn_map, <- !skipn_map, Hm.
  reflexivity.
Qed.

Section CompletionFlags.
Variables heap heap' : Heap.
(** [heap'] differs from [heap] at most in the completion flags. *)
Hypothesis Hflags : forall r, heap' r = set_is_completed (heap r) (is_completed (heap' r)).

Lemma flags_duration (r : Ref) : duration_minutes (heap' r) = duration_minutes (heap r).
Proof. rewrite Hflags. reflexivity. Qed.

Lemma flags_priority_key (r : Ref) : priority_key heap' r = priority_key heap r.
Proof. unfold priority_key, get_priority_score. rewrite Hflags. reflexivity. Qed.

Lemma flags_sched_loop (fuel : nat) (s : LoopState) :
  StronglySorted (desc (priority_key heap)) (available_tasks s) ->
  sched_loop heap' generate_reasoning fuel s = sched_loop heap generate_reasoning fuel s.
Proof.
  revert s. induction fuel as [|fuel IH]; intros s HS; [reflexivity|].
  cbn [sched_loop]. destruct (available_tasks s) as [|h t] eqn:A.
  - destruct (0 <? remaining_time s); reflexivity.
  - destruct (0 <? remaining_time s); cbn [andb negb]; [|reflexivity].
    assert (HS' : StronglySorted (desc (priority_key heap')) (h :: t)).
    { eapply StronglySorted_weaken; [|exact HS]. intros x y. unfold desc.
      rewrite !flags_priority_key. auto. }
    rewrite (loop_step_sorted heap' _ s h t A HS'), (loop_step_sorted heap _ s h t A HS).
    unfold can_fit_task. rewrite flags_duration.
    assert (E : scheduled_entry heap' generate_reasoning s h t
                = scheduled_entry heap generate_reasoning s h t).
    { unfold scheduled_entry, calculate_task_score. f_equal.
      assert (Ep : get_priority_score (heap' h) = get_priority_score (heap h))
        by apply flags_priority_key.
      rewrite Ep. apply generate_reasoning_priorities.
      - rewrite Hflags. reflexivity.
      - rewrite Hflags. reflexivity.
      - rewrite !map_map. apply map_ext. intros r. rewrite Hflags. reflexivity. }
    inversion HS as [|? ? HSt _]; subst.
    destruct (duration_minutes (heap h) <=? remaining_time s).
    + rewrite E. apply IH, HSt.
    + apply IH, HSt.
Qed.

Lemma flags_total (sch : Schedule) : calculate_total_time heap' sch = calculate_total_time heap sch.
Proof.
  unfold calculate_total_time. rewrite !fold_left_scheduled. f_equal. f_equal.
  induction (scheduled_tasks sch) as [|x l IH]; [reflexivity|].
  unfold sum_durations in *. cbn [fold_right]. rewrite IH, flags_duration. reflexivity.
Qed.

End CompletionFlags.

(** X16.  [generate_schedule] never looks at [is_completed]: tasks already
    marked complete are scheduled like any other, and changing completion
    flags changes nothing in the generated schedule. *)
Theorem generate_schedule_ignores_completion (heap heap' : Heap) (owner : Owner) (date : Date) :
  (forall r, heap' r = set_is_completed (heap r) (is_completed (heap' r))) ->
  generate_schedule heap' owner date = generate_schedule heap owner date.
Proof.
  intros H. unfold generate_schedule, generate_schedule_with.
  rewrite (sorted_desc_ext (priority_key heap') (priority_key heap) _ (flags_priority_key heap heap' H)).
  pose proof (sorted_desc_sorted (priority_key heap) (get_all_tasks owner)) as HS.
  destruct (sorted_desc (priority_key heap) (get_all_tasks owner)) as [|h t]; [reflexivity|].
  rewrite (flags_sched_loop heap heap' H _
             (mkLoopState (h :: t) [] [] (6 * 60) (available_time_minutes owner) 0) HS).
  destruct (available_time_minutes owner <=? 0); rewrite (flags_total heap heap' H); reflexivity.
Qed.

Lemma generate_schedule_ignores_completion_witness :
  generate_schedule (fun r => set_is_completed (heap_of tasks_budget40 r) true) owner_budget40 date0
  = generate_schedule (heap_of tasks_budget40) owner_budget40 date0.
Proof.
  apply generate_schedule_ignores_completion. intros r. reflexivity.
Defined.

(** ** Start times and order numbers *)

Lemma snoc_split {A} (l pre post : list A) (e st : A) :
  l ++ [e] = pre ++ st :: post ->
  (pre = l /\ st = e /\ post = []) \/ (exists post', post = post' ++ [e] /\ l = pre ++ st :: post').
Proof.
  intros H. destruct post as [|y post0].
  - left. apply app_inj_tail in H. destruct H as [-> ->]. auto.
  - destruct (@exists_last _ (y :: post0) ltac:(discriminate)) as (post' & x & Ex).
    rewrite Ex in *. right. exists post'. rewrite app_comm_cons, app_assoc in H.
    apply app_inj_tail in H. destruct H as [-> ->]. auto.
Qed.

Definition timeline_invariant (heap : Heap) (s : LoopState) : Prop :=
  ls_order_index s = Z.of_nat (List.length (ls_scheduled s))
  /\ current_time s = (6 * 60 + sum_durations heap (ls_scheduled s)) mod minutes_per_day
  /\ (forall pre st post, ls_scheduled s = pre ++ st :: post ->
        scheduled_time st = (6 * 60 + sum_durations heap pre) mod minutes_per_day
        /\ order_index st = Z.of_nat (List.length pre)).

Lemma sched_loop_timeline (heap : Heap) gen (fuel : nat) (s0 : LoopState) :
  StronglySorted (desc (priority_key heap)) (available_tasks s0) ->
  timeline_invariant heap s0 -> timeline_invariant heap (sched_loop heap gen fuel s0).
Proof.
  intros Hsorted Hinit. apply (sched_loop_invariant heap gen (timeline_invariant heap)); auto.
  loop_step_cases.
  - destruct HP as (H1 & H2 & H3). unfold timeline_invariant.
    cbn [ls_order_index ls_scheduled current_time].
    rewrite length_app, sum_durations_app. unfold sum_durations at 2.
    cbn [fold_right st_task scheduled_entry List.length].
    split; [rewrite H1; lia|]. split.
    + unfold add_minutes. rewrite H2, Zplus_mod_idemp_l. f_equal. lia.
    + intros pre st post E. apply snoc_split in E.
      destruct E as [(-> & -> & ->)|(post' & -> & E)].
      * cbn [scheduled_time order_index scheduled_entry]. split; [exact H2|exact H1].
      * apply H3 with post'. exact E.
  - exact HP.
Qed.

(** X17.  The tasks of a generated schedule run back to back from 06:00, in
    the order of the list: each starts when the ones before it, in total,
    are over (modulo 24 hours), whatever was left unscheduled in between,
    and its [order_index] is its position in the list. *)
Theorem scheduled_back_to_back (heap : Heap) (owner : Owner) (date : Date)
    (pre post : list ScheduledTask) (st : ScheduledTask) :
  scheduled_tasks (generate_schedule heap owner date) = pre ++ st :: post ->
  scheduled_time st = (6 * 60 + sum_durations heap pre) mod minutes_per_day
  /\ order_index st = Z.of_nat (List.length pre).
Proof.
  unfold generate_schedule.
  destruct (generate_schedule_lists heap generate_reasoning owner date) as [[-> _]|[_ [-> _]]].
  - intros E. destruct pre; discriminate.
  - set (available := sorted_desc (priority_key heap) (get_all_tasks owner)).
    destruct (sched_loop_timeline heap generate_reasoning (List.length available)
                (initial_state available (available_time_minutes owner)))
      as (_ & _ & H3).
    + apply sorted_desc_sorted.
    + unfold timeline_invariant. cbn. split; [reflexivity|]. split; [reflexivity|].
      intros pre' st' post' E. destruct pre'; discriminate.
    + apply H3.
Qed.

Lemma scheduled_back_to_back_witness :
  let sch := scheduled_tasks (generate_schedule (heap_of tasks_budget40) owner_budget40 date0) in
  scheduled_time (nth 1 sch (mkScheduledTask 0%nat 0 0 "")) = 6 * 60 + 10.
Proof.
  cbv zeta.
  destruct (scheduled_back_to_back (heap_of tasks_budget40) owner_budget40 date0
              [mkScheduledTask 0%nat (6 * 60) 0
                 "CRITICAL priority - must be completed. feeding is essential care. chosen over HIGH, LOW priority tasks."]
              []
              (mkScheduledTask 1%nat (6 * 60 + 10) 1
                 "HIGH priority task. exercise is important for pet health. chosen over LOW priority tasks."))
    as [H _].
  - vm_compute. reflexivity.
  - vm_compute. reflexivity.
Defined.

(** ** C1: validity of generated schedules *)

(** Two tasks of one run, the second starting when the first and the
    tasks between them are over, do not conflict as long as everything
    ends by 06:00 of the next day (minute 1800 from the 06:00 start's
    midnight). *)
Lemma within_24h_no_conflict (A da B db : Z) :
  360 <= A -> 0 <= da -> 0 <= db -> A + da <= B -> B + db <= 1800 ->
  (A + da) mod minutes_per_day <= B mod minutes_per_day
  \/ (B + db) mod minutes_per_day <= A mod minutes_per_day.
Proof. unfold minutes_per_day. intros. Z.div_mod_to_equations. nia. Qed.

Lemma sum_durations_nonneg (heap : Heap) (l : list ScheduledTask) :
  Forall (fun st => 0 <= duration_minutes (heap (st_task st))) l -> 0 <= sum_durations heap l.
Proof. induction 1; unfold sum_durations in *; simpl; lia. Qed.

(** A list of tasks laid out back to back from [06:00 + P0] that ends by
    06:00 of the next day passes [validate]. *)
Lemma validate_back_to_back (heap : Heap) (l : list ScheduledTask) (P0 : Z) :
  0 <= P0 -> P0 + sum_durations heap l <= 1440 ->
  Forall (fun st => 0 <= duration_minutes (heap (st_task st))) l ->
  (forall pre st post, l = pre ++ st :: post ->
     scheduled_time st = (6 * 60 + P0 + sum_durations heap pre) mod minutes_per_day) ->
  validate heap l = true.
Proof.
  revert P0. induction l as [|a l IH]; intros P0 HP0 Hsum Hnn Htime; [reflexivity|].
  inversion Hnn as [|? ? Ha Hl]; subst.
  assert (Hsa : sum_durations heap (a :: l) = duration_minutes (heap (st_task a)) + sum_durations heap l)
    by reflexivity.
  cbn [validate]. apply andb_true_intro. split.
  - apply forallb_forall. intros b Hb. destruct (in_split b l Hb) as (pre & post & El).
    pose proof (Htime [] a l eq_refl) as Hta. cbn [sum_durations fold_right] in Hta.
    pose proof (Htime (a :: pre) b post ltac:(rewrite El; reflexivity)) as Htb.
    assert (Hsl : sum_durations heap l
                  = sum_durations heap pre + duration_minutes (heap (st_task b)) + sum_durations heap post).
    { rewrite El, sum_durations_app.
      change (sum_durations heap (b :: post))
        with (duration_minutes (heap (st_task b)) + sum_durations heap post). lia. }
    rewrite El in Hl. apply Forall_app in Hl as [Hpre Hbpost].
    inversion Hbpost as [|? ? Hbnn Hpost]; subst.
    pose proof (sum_durations_nonneg heap _ Hpre). pose proof (sum_durations_nonneg heap _ Hpost).
    replace (sum_durations heap (a :: pre))
      with (duration_minutes (heap (st_task a)) + sum_durations heap pre) in Htb by reflexivity.
    destruct (within_24h_no_conflict (6 * 60 + P0 + 0) (duration_minutes (heap (st_task a)))
                (6 * 60 + P0 + (duration_minutes (heap (st_task a)) + sum_durations heap pre))
                (duration_minutes (heap (st_task b)))) as [Hc|Hc]; try lia.
    + unfold conflicts_with, get_end_time, add_minutes. rewrite Hta, Htb, !Zplus_mod_idemp_l.
      apply Z.leb_le in Hc. rewrite Hc. reflexivity.
    + unfold conflicts_with, get_end_time, add_minutes. rewrite Hta, Htb, !Zplus_mod_idemp_l.
      apply Z.leb_le in Hc. rewrite Hc, orb_true_r. reflexivity.
  - apply (IH (P0 + duration_minutes (heap (st_task a)))); auto; try lia.
    intros pre st post E. rewrite (Htime (a :: pre) st post ltac:(rewrite E; reflexivity)).
    f_equal. unfold sum_durations at 1. cbn [fold_right]. fold (sum_durations heap pre). lia.
Qed.

Lemma generate_schedule_scheduled_in (heap : Heap) gen (owner : Owner) (date : Date)
    (st : ScheduledTask) :
  In st (scheduled_tasks (generate_schedule_with heap gen owner date)) ->
  In (st_task st) (get_all_tasks owner).
Proof.
  intros H. eapply Permutation_in; [apply (generate_schedule_perm heap gen owner date)|].
  apply in_or_app. left. apply in_map, H.
Qed.

(** C1 (counterexample).  [validate] rejects generated schedules: with a
    1500-minute budget (Sit 06:00-16:00, Hike 16:00-02:00, Spa
    02:00-07:00); with a 1441-minute budget, one minute more than a day
    (Sit 06:00-16:00, Hike 16:00-02:00, Spa 02:00-06:01); and with a
    10-minute budget and negative durations that move the cursor back
    (Sit 06:00 for -300 minutes, Hike 01:00 for -30, Spa 00:30-06:10). *)
Lemma generate_schedule_valid_counterexample :
  ~ (forall (heap : Heap) (owner : Owner) (date : Date),
       validate heap (scheduled_tasks (generate_schedule heap owner date)) = true)
  /\ validate (heap_of tasks_1441)
       (scheduled_tasks (generate_schedule (heap_of tasks_1441) owner_1441 date0)) = false
  /\ validate (heap_of tasks_backwards)
       (scheduled_tasks (generate_schedule (heap_of tasks_backwards) owner_backwards date0)) = false.
Proof.
  split; [|split; vm_compute; reflexivity].
  intros H. specialize (H (heap_of tasks_long_day) owner_long_day date0).
  vm_compute in H. discriminate.
Qed.

(** C1 (amended).  When the owner's budget is at most 1440 minutes (so
    the schedule, which starts at 06:00, ends by 06:00 of the next day)
    and no task has a negative duration, [validate] accepts the generated
    schedule: no two scheduled tasks overlap, even when the schedule runs
    past midnight. *)
Theorem generate_schedule_valid_within_day (heap : Heap) (owner : Owner) (date : Date) :
  available_time_minutes owner <= 1440 ->
  (forall r, In r (get_all_tasks owner) -> 0 <= duration_minutes (heap r)) ->
  validate heap (scheduled_tasks (generate_schedule heap owner date)) = true.
Proof.
  intros Hb Hdur.
  assert (Hnn : Forall (fun st => 0 <= duration_minutes (heap (st_task st)))
                  (scheduled_tasks (generate_schedule heap owner date))).
  { apply Forall_forall. intros st Hst. apply Hdur.
    exact (generate_schedule_scheduled_in heap generate_reasoning owner date st Hst). }
  unfold generate_schedule in *.
  destruct (generate_schedule_lists heap generate_reasoning owner date) as [[-> _]|[Hpos [E _]]];
    [reflexivity|].
  rewrite E in *.
  set (available := sorted_desc (priority_key heap) (get_all_tasks owner)) in *.
  destruct (sched_loop_timeline heap generate_reasoning (List.length available)
              (initial_state available (available_time_minutes owner)))
    as (_ & _ & Htime).
  { apply sorted_desc_sorted. }
  { unfold timeline_invariant. cbn. split; [reflexivity|]. split; [reflexivity|].
    intros pre' st' post' E'. destruct pre'; discriminate. }
  destruct (sched_loop_budget heap generate_reasoning (available_time_minutes owner)
              (List.length available) (initial_state available (available_time_minutes owner)))
    as [Hs Hr].
  { apply sorted_desc_sorted. }
  { unfold budget_invariant. cbn. lia. }
  unfold initial_state in *.
  apply (validate_back_to_back heap _ 0); try lia; [exact Hnn|].
  intros pre st post Ep. rewrite (proj1 (Htime pre st post Ep)); f_equal; lia.
Qed.

Lemma generate_schedule_valid_within_day_witness :
  available_time_minutes (mkOwner "Sam" 1440 [mkPet "Rex" "dog" [0%nat; 1%nat; 2%nat]]) <= 1440
  /\ (forall r, In r (get_all_tasks (mkOwner "Sam" 1440 [mkPet "Rex" "dog" [0%nat; 1%nat; 2%nat]])) ->
        0 <= duration_minutes (heap_of tasks_long_day r))
  /\ validate (heap_of tasks_long_day)
       (scheduled_tasks (generate_schedule (heap_of tasks_long_day)
          (mkOwner "Sam" 1440 [mkPet "Rex" "dog" [0%nat; 1%nat; 2%nat]]) date0)) = true.
Proof.
  assert (H1 : available_time_minutes (mkOwner "Sam" 1440 [mkPet "Rex" "dog" [0%nat; 1%nat; 2%nat]])
               <= 1440) by (simpl; lia).
  assert (H2 : forall r, In r (get_all_tasks (mkOwner "Sam" 1440 [mkPet "Rex" "dog" [0%nat; 1%nat; 2%nat]])) ->
                 0 <= duration_minutes (heap_of tasks_long_day r)).
  { intros r Hr. simpl in Hr.
    destruct Hr as [<-|[<-|[<-|[]]]]; vm_compute; discriminate. }
  split; [exact H1|]. split; [exact H2|].
  apply (generate_schedule_valid_within_day _ _ _ H1 H2).
Defined.

(** ** Overflow of the [datetime] arithmetic *)

Lemma add_minutes_checked_some (today t d c : Z) :
  add_minutes_checked today t d = Some c -> c = add_minutes t d.
Proof.
  unfold add_minutes_checked, add_minutes. cbv zeta.
  destruct (_ && _); intros H; [|discriminate]. injection H as <-.
  replace ((today - 1) * minutes_per_day + t + d) with ((t + d) + (today - 1) * minutes_per_day)
    by lia.
  apply Z_mod_plus_full.
Qed.

Lemma add_minutes_checked_none (today t d : Z) :
  add_minutes_checked today t d = None
  <-> ~ (0 <= (today - 1) * minutes_per_day + t + d < max_ordinal * minutes_per_day).
Proof.
  unfold add_minutes_checked. cbv zeta.
  destruct (0 <=? (today - 1) * minutes_per_day + t + d) eqn:E1,
           ((today - 1) * minutes_per_day + t + d <? max_ordinal * minutes_per_day) eqn:E2;
    cbn [andb];
    rewrite ?Z.leb_le, ?Z.leb_gt, ?Z.ltb_lt, ?Z.ltb_ge in *;
    (split; [discriminate + (intros _; lia)|]); intros H; (reflexivity + (exfalso; lia)).
Qed.

Lemma add_minutes_checked_range (today t d : Z) :
  0 <= (today - 1) * minutes_per_day + t + d < max_ordinal * minutes_per_day ->
  add_minutes_checked today t d = Some (add_minutes t d).
Proof.
  intros H. destruct (add_minutes_checked today t d) eqn:E.
  - f_equal. apply (add_minutes_checked_some _ _ _ _ E).
  - apply add_minutes_checked_none in E. contradiction.
Qed.


Section CheckedFacts.
Variable today : Z.
Variable heap : Heap.
Variable gen_reasoning : Task -> Z -> list Task -> string.

Lemma get_end_time_checked_some (st : ScheduledTask) (e : Time) :
  get_end_time_checked today heap st = Some e -> e = get_end_time heap st.
Proof. apply add_minutes_checked_some. Qed.

Lemma conflicts_with_checked_some (a b : ScheduledTask) (c : bool) :
  conflicts_with_checked today heap a b = Some c -> c = conflicts_with heap a b.
Proof.
  unfold conflicts_with_checked, conflicts_with.
  destruct (get_end_time_checked today heap a) as [e1|] eqn:E1; [|discriminate].
  apply get_end_time_checked_some in E1. subst e1.
  destruct (get_end_time heap a <=? scheduled_time b); cbn [orb negb].
  - intros H. injection H as <-. reflexivity.
  - destruct (get_end_time_checked today heap b) as [e2|] eqn:E2; [|discriminate].
    apply get_end_time_checked_some in E2. subst e2.
    intros H. injection H as <-. reflexivity.
Qed.

Lemma conflicts_with_checked_total (a b : ScheduledTask) :
  get_end_time_checked today heap a <> None -> get_end_time_checked today heap b <> None ->
  conflicts_with_checked today heap a b = Some (conflicts_with heap a b).
Proof.
  intros Ha Hb. destruct (conflicts_with_checked today heap a b) eqn:E.
  - f_equal. apply conflicts_with_checked_some, E.
  - exfalso. unfold conflicts_with_checked in E.
    destruct (get_end_time_checked today heap a); [|contradiction].
    destruct (_ <=? _); [discriminate|].
    destruct (get_end_time_checked today heap b); [discriminate|contradiction].
Qed.

Lemma validate_pairs_some (a : ScheduledTask) (l : list ScheduledTask) (c : bool) :
  validate_pairs today heap a l = Some c ->
  c = forallb (fun task2 => negb (conflicts_with heap a task2)) l.
Proof.
  induction l as [|b l IH]; cbn [validate_pairs forallb].
  - intros H. injection H as <-. reflexivity.
  - destruct (conflicts_with_checked today heap a b) as [[|]|] eqn:E; intros H; try discriminate.
    + apply conflicts_with_checked_some in E. rewrite <- E. injection H as <-. reflexivity.
    + apply conflicts_with_checked_some in E. rewrite <- E. apply IH, H.
Qed.

Lemma validate_checked_some (l : list ScheduledTask) (c : bool) :
  validate_checked today heap l = Some c -> c = validate heap l.
Proof.
  induction l as [|a l IH]; cbn [validate_checked validate].
  - intros H. injection H as <-. reflexivity.
  - destruct (validate_pairs today heap a l) as [[|]|] eqn:E; intros H; try discriminate.
    + apply validate_pairs_some in E. rewrite <- E. apply IH, H.
    + apply validate_pairs_some in E. rewrite <- E. injection H as <-. reflexivity.
Qed.

Lemma validate_pairs_total (a : ScheduledTask) (l : list ScheduledTask) :
  get_end_time_checked today heap a <> None ->
  Forall (fun st => get_end_time_checked today heap st <> None) l ->
  validate_pairs today heap a l <> None.
Proof.
  intros Ha. induction 1 as [|b l Hb _ IH]; cbn [validate_pairs]; [discriminate|].
  rewrite (conflicts_with_checked_total a b Ha Hb).
  destruct (conflicts_with heap a b); [discriminate|exact IH].
Qed.

Lemma validate_checked_total (l : list ScheduledTask) :
  Forall (fun st => get_end_time_checked today heap st <> None) l ->
  validate_checked today heap l = Some (validate heap l).
Proof.
  intros H. destruct (validate_checked today heap l) eqn:E.
  - f_equal. apply validate_checked_some, E.
  - exfalso. induction H as [|a l Ha Hl IH]; cbn [validate_checked] in E; [discriminate|].
    pose proof (validate_pairs_total a l Ha Hl) as Hp.
    destruct (validate_pairs today heap a l) as [[|]|]; [auto|discriminate|contradiction].
Qed.








End CheckedFacts.



(** ** C7: construction performs no validation *)

(** C7 (counterexample).  [Task(title="Feed", duration_minutes=-5, ...)]
    is built as given, and the scheduler receives and schedules it. *)
Lemma task_validation_counterexample :
  duration_minutes (Task_init "Feed" (-5) CRITICAL FEEDING "" None false) = -5
  /\ map st_task (scheduled_tasks (generate_schedule (heap_of tasks_negative) owner_negative date0))
     = [0%nat]
  /\ generate_schedule_checked today0 (heap_of tasks_negative) owner_negative date0
     = Some (generate_schedule (heap_of tasks_negative) owner_negative date0).
Proof. split; [|split]; vm_compute; reflexivity. Qed.

(** C7 (amended).  Constructing a [Task] checks nothing: every field is
    kept as given (a missing frequency becomes [ONCE]), whatever the sign
    of the duration; an [Owner] likewise keeps any budget.  A task with a
    non-positive duration always passes [_can_fit_task].  For a positive
    budget and a single such task, [generate_schedule] raises
    [OverflowError] exactly when the cursor advance, 06:00 of the current
    day plus the duration, falls before 0001-01-01 00:00; otherwise the
    task is scheduled. *)
Theorem task_construction_unchecked :
  (forall ttl d p c desc f done,
     let t := Task_init ttl d p c desc f done in
     title t = ttl /\ duration_minutes t = d /\ priority t = p /\ category t = c
     /\ description t = desc /\ frequency t = match f with None => ONCE | Some f => f end
     /\ is_completed t = done)
  /\ (forall name b pets, available_time_minutes (mkOwner name b pets) = b)
  /\ (forall (today : Z) (heap : Heap) (r : Ref) name b pet_name sp date,
        1 <= today <= max_ordinal -> 0 < b -> duration_minutes (heap r) <= 0 ->
        let res := generate_schedule_checked today heap (mkOwner name b [mkPet pet_name sp [r]]) date in
        (res = None <-> (today - 1) * minutes_per_day + 6 * 60 + duration_minutes (heap r) < 0)
        /\ (forall sch, res = Some sch -> map st_task (scheduled_tasks sch) = [r])).
Proof.
  split; [intros; cbv zeta; repeat split; reflexivity|].
  split; [reflexivity|].
  intros today heap r name b pet_name sp date Ht Hb Hd. cbv zeta.
  unfold generate_schedule_checked, generate_schedule_checked_with.
  change (get_all_tasks (mkOwner name b [mkPet pet_name sp [r]])) with [r].
  change (sorted_desc (priority_key heap) [r]) with [r].
  cbn [available_time_minutes].
  replace (b <=? 0) with false by (symmetry; apply Z.leb_gt; lia).
  cbn [List.length sched_loop_checked remaining_time available_tasks].
  replace (0 <? b) with true by (symmetry; apply Z.ltb_lt; lia). cbn [andb negb].
  unfold loop_step_checked. cbn [available_tasks current_time remaining_time].
  rewrite (select_sorted heap (6 * 60) r [] (SSorted_cons _ (SSorted_nil _) (Forall_nil _))).
  unfold can_fit_task.
  replace (duration_minutes (heap r) <=? b) with true by (symmetry; apply Z.leb_le; lia).
  cbn [negb].
  destruct (add_minutes_checked today (6 * 60) (duration_minutes (heap r))) as [c|] eqn:E.
  - assert (Hin : ~ (add_minutes_checked today (6 * 60) (duration_minutes (heap r)) = None))
      by (rewrite E; discriminate).
    rewrite add_minutes_checked_none in Hin.
    cbn [sched_loop_checked]. split.
    + split; [discriminate|]. intros Hlt. exfalso. apply Hin.
      unfold minutes_per_day, max_ordinal in *. lia.
    + intros sch Hs. injection Hs as <-. rewrite (proj1 (finalize_lists _ _ _)).
      cbn [scheduled_tasks ls_scheduled map app st_task]. reflexivity.
  - apply add_minutes_checked_none in E. split.
    + split; [intros _|reflexivity].
      unfold minutes_per_day, max_ordinal in *. lia.
    + discriminate.
Qed.

Lemma task_construction_unchecked_witness :
  generate_schedule_checked today0 (heap_of tasks_very_negative) owner_negative date0 = None.
Proof.
  apply (proj2 (proj1 (proj2 (proj2 task_construction_unchecked) today0 (heap_of tasks_very_negative)
           0%nat "Jordan"%string 30 "Mochi"%string "dog"%string date0
           ltac:(unfold today0, max_ordinal; lia) ltac:(lia) ltac:(vm_compute; discriminate)))).
  vm_compute. reflexivity.
Defined.

(** ** X10: when every task fits *)



(** ** X11: the order of validation *)

(** X11.  While no end time leaves the [datetime] range,
    [ScheduledTask.conflicts_with] returns (no [OverflowError]) and is
    symmetric, and [Schedule.validate] returns the same result for every
    order of the tasks.  Once an end time leaves the range, the order
    matters: with A at 06:00 for 10 minutes and H at 07:00 ending beyond
    [datetime.max], [validate] returns [True] for [[A, H]] (the [or] never
    computes H's end) and raises for [[H, A]]. *)
Theorem validate_order_independent (today : Z) (heap : Heap) :
  (forall a b, get_end_time_checked today heap a <> None -> get_end_time_checked today heap b <> None ->
     conflicts_with_checked today heap a b = Some (conflicts_with heap a b)
     /\ conflicts_with heap a b = conflicts_with heap b a)
  /\ (forall l1 l2, Permutation l1 l2 ->
        Forall (fun st => get_end_time_checked today heap st <> None) l1 ->
        validate_checked today heap l1 = Some (validate heap l1)
        /\ validate_checked today heap l2 = Some (validate heap l2)
        /\ validate heap l1 = validate heap l2)
  /\ (1 <= today <= max_ordinal ->
        validate_checked today (heap_of tasks_overflow) [st_a; st_h] = Some true
        /\ validate_checked today (heap_of tasks_overflow) [st_h; st_a] = None).
Proof.
  split; [|split].
  - intros a b Ha Hb. split; [apply conflicts_with_checked_total; auto|apply conflicts_with_sym].
  - intros l1 l2 HP Hl1.
    assert (Hl2 : Forall (fun st => get_end_time_checked today heap st <> None) l2).
    { rewrite Forall_forall in *. intros x Hx. apply Hl1. eapply Permutation_in.
      - apply Permutation_sym, HP.
      - exact Hx. }
    split; [apply validate_checked_total, Hl1|]. split; [apply validate_checked_total, Hl2|].
    clear Hl1 Hl2.
    induction HP as [|x l1 l2 HP IH|x y l|l1 l2 l3 _ IH1 _ IH2]; simpl.
    + reflexivity.
    + rewrite IH, (forallb_perm _ _ _ HP). reflexivity.
    + rewrite (conflicts_with_sym heap x y).
      destruct (negb (conflicts_with heap y x)), (forallb (fun task2 => negb (conflicts_with heap y task2)) l),
        (forallb (fun task2 => negb (conflicts_with heap x task2)) l), (validate heap l); reflexivity.
    + congruence.
  - intros Ht.
    assert (Ea : get_end_time_checked today (heap_of tasks_overflow) st_a = Some (6 * 60 + 10)).
    { unfold get_end_time_checked. rewrite add_minutes_checked_range.
      - reflexivity.
      - cbn. unfold minutes_per_day, max_ordinal in *. lia. }
    assert (Eh : get_end_time_checked today (heap_of tasks_overflow) st_h = None).
    { unfold get_end_time_checked. apply add_minutes_checked_none.
      cbn. unfold minutes_per_day, max_ordinal in *. lia. }
    split.
    + cbn [validate_checked validate_pairs]. unfold conflicts_with_checked at 1.
      rewrite Ea. reflexivity.
    + cbn [validate_checked validate_pairs]. unfold conflicts_with_checked at 1.
      rewrite Eh. reflexivity.
Qed.

Lemma validate_order_independent_witness :
  validate_checked today0 (heap_of tasks_overflow) [st_a; st_h] = Some true
  /\ validate_checked today0 (heap_of tasks_overflow) [st_h; st_a] = None
  /\ validate_checked today0 (heap_of tasks_morning) [st_feed; st_walk]
     = validate_checked today0 (heap_of tasks_morning) [st_walk; st_feed].
Proof.
  destruct (validate_order_independent today0 (heap_of tasks_overflow)) as (_ & _ & H3).
  destruct (H3 ltac:(unfold today0, max_ordinal; lia)) as [E1 E2].
  split; [exact E1|]. split; [exact E2|].
  destruct (validate_order_independent today0 (heap_of tasks_morning)) as (_ & H2 & _).
  destruct (H2 [st_feed; st_walk] [st_walk; st_feed] (perm_swap _ _ _)
              ltac:(repeat constructor; vm_compute; discriminate)) as (E3 & E4 & E5).
  rewrite E3, E4, E5. reflexivity.
Defined.
(** ** Binary64 rounding *)

Lemma pow2Q_pos (e : Z) : (0 < pow2Q e)%Q.
Proof. apply Qpower_0_lt. reflexivity. Qed.

Lemma pow2Q_plus (a b : Z) : (pow2Q (a + b) == pow2Q a * pow2Q b)%Q.
Proof. apply Qpower_plus. discriminate. Qed.

Lemma pow2Q_Z (n : Z) : 0 <= n -> (pow2Q n == inject_Z (2 ^ n))%Q.
Proof. intros H. unfold pow2Q. rewrite Zpower_Qpower by exact H. reflexivity. Qed.

Lemma pow2Q_shift (a c e : Z) : c <= e ->
  (inject_Z a * pow2Q e == inject_Z (a * 2 ^ (e - c)) * pow2Q c)%Q.
Proof.
  intros H. replace e with ((e - c) + c) at 1 by lia.
  rewrite pow2Q_plus, pow2Q_Z by lia. rewrite inject_Z_mult. ring.
Qed.

Lemma pow2Q_le (a b e1 e2 c : Z) : c <= e1 -> c <= e2 ->
  (inject_Z a * pow2Q e1 <= inject_Z b * pow2Q e2)%Q <-> a * 2 ^ (e1 - c) <= b * 2 ^ (e2 - c).
Proof.
  intros H1 H2. rewrite (pow2Q_shift a c e1), (pow2Q_shift b c e2) by assumption.
  rewrite Qmult_le_r by apply pow2Q_pos. rewrite <- Zle_Qle. reflexivity.
Qed.

Lemma pow2Q_lt (a b e1 e2 c : Z) : c <= e1 -> c <= e2 ->
  (inject_Z a * pow2Q e1 < inject_Z b * pow2Q e2)%Q <-> a * 2 ^ (e1 - c) < b * 2 ^ (e2 - c).
Proof.
  intros H1 H2. rewrite (pow2Q_shift a c e1), (pow2Q_shift b c e2) by assumption.
  rewrite Qmult_lt_r by apply pow2Q_pos. rewrite <- Zlt_Qlt. reflexivity.
Qed.

Lemma inject_Z_pow2Q_0 (a : Z) : (inject_Z a == inject_Z a * pow2Q 0)%Q.
Proof. unfold pow2Q. simpl. ring. Qed.

(* shifting *)
Lemma loc_of_shr_record_exact (mrs : shr_record) :
  loc_of_shr_record mrs = loc_Exact <-> shr_exact mrs.
Proof.
  destruct mrs as [m [|] [|]]; unfold shr_exact; simpl; intuition congruence.
Qed.

Lemma shr_record_of_loc_m (m : Z) (l : location) : shr_m (shr_record_of_loc m l) = m.
Proof. destruct l as [|[| |]]; reflexivity. Qed.

Lemma shr_record_of_loc_exact (m : Z) (l : location) :
  shr_exact (shr_record_of_loc m l) <-> l = loc_Exact.
Proof. destruct l as [|[| |]]; unfold shr_exact; simpl; intuition congruence. Qed.

Lemma shr_1_spec (mrs : shr_record) : 0 <= shr_m mrs -> shr_spec 1 mrs (shr_1 mrs).
Proof.
  destruct mrs as [m r s]. simpl. intros Hm. unfold shr_spec, shr_exact. simpl.
  destruct m as [|p|p]; [|destruct p|lia]; simpl;
    [| rewrite (Pos2Z.inj_xI p) | rewrite (Pos2Z.inj_xO p) |];
    (split; [ | destruct r, s; simpl; split; intuition (try congruence)]);
    try (Z.div_mod_to_equations; lia);
    try reflexivity.
Qed.

Lemma mod_pow2_add (x a b : Z) : 0 <= x -> 0 <= a -> 0 <= b ->
  x mod 2 ^ (a + b) = 0 <-> x mod 2 ^ a = 0 /\ (x / 2 ^ a) mod 2 ^ b = 0.
Proof.
  intros Hx Ha Hb.
  assert (Hpa : 0 < 2 ^ a) by (apply Z.pow_pos_nonneg; lia).
  assert (Hpb : 0 < 2 ^ b) by (apply Z.pow_pos_nonneg; lia).
  rewrite Z.pow_add_r by assumption.
  rewrite <- !Z.rem_mod_nonneg, <- Z.quot_div_nonneg by (try apply Z.mul_pos_pos; lia).
  rewrite Z.mod_mul_r by lia.
  rewrite <- (Z.rem_mod_nonneg (x ÷ 2 ^ a)) by (try apply Z.quot_pos; lia).
  assert (0 <= Z.rem x (2 ^ a)) by (apply Z.rem_nonneg; lia).
  assert (0 <= Z.rem (x ÷ 2 ^ a) (2 ^ b))
    by (apply Z.rem_nonneg; [lia|apply Z.quot_pos; lia]).
  nia.
Qed.

Lemma shr_spec_compose (a b : Z) (x y z : shr_record) :
  0 <= a -> 0 <= b -> 0 <= shr_m x ->
  shr_spec a x y -> shr_spec b y z -> shr_spec (a + b) x z.
Proof.
  unfold shr_spec. intros Ha Hb Hx [Hy1 Hy2] [Hz1 Hz2].
  assert (Hpa : 0 < 2 ^ a) by (apply Z.pow_pos_nonneg; lia).
  assert (Hpb : 0 < 2 ^ b) by (apply Z.pow_pos_nonneg; lia).
  split.
  - rewrite Hz1, Hy1, Z.div_div, Z.pow_add_r by lia. reflexivity.
  - rewrite Hz2, Hy2, Hy1, mod_pow2_add by lia. tauto.
Qed.

Lemma shr_m_nonneg_spec (n : Z) (x y : shr_record) :
  0 <= n -> 0 <= shr_m x -> shr_spec n x y -> 0 <= shr_m y.
Proof.
  intros Hn Hx [H _]. rewrite H. apply Z.div_pos; [lia|]. apply Z.pow_pos_nonneg; lia.
Qed.

Lemma iter_pos_shr_1_spec (p : positive) : forall mrs,
  0 <= shr_m mrs -> shr_spec (Zpos p) mrs (iter_pos shr_1 p mrs).
Proof.
  induction p as [p IH|p IH|]; intros mrs Hm; simpl.
  - assert (H1 := shr_1_spec mrs Hm).
    assert (H1' := shr_m_nonneg_spec 1 _ _ ltac:(lia) Hm H1).
    assert (H2 := IH _ H1').
    assert (H2' := shr_m_nonneg_spec (Zpos p) _ _ ltac:(lia) H1' H2).
    assert (H3 := IH _ H2').
    rewrite Pos2Z.inj_xI. replace (2 * Zpos p + 1) with (1 + Zpos p + Zpos p) by lia.
    eapply shr_spec_compose; [lia|lia|exact Hm| |exact H3].
    eapply shr_spec_compose; [lia|lia|exact Hm|exact H1|exact H2].
  - assert (H2 := IH _ Hm).
    assert (H2' := shr_m_nonneg_spec (Zpos p) _ _ ltac:(lia) Hm H2).
    assert (H3 := IH _ H2').
    rewrite Pos2Z.inj_xO. replace (2 * Zpos p) with (Zpos p + Zpos p) by lia.
    eapply shr_spec_compose; [lia|lia|exact Hm|exact H2|exact H3].
  - apply shr_1_spec, Hm.
Qed.

Lemma shr_spec_gen (mrs : shr_record) (e n : Z) : 0 <= shr_m mrs ->
  snd (shr mrs e n) = e + Z.max n 0 /\ shr_spec (Z.max n 0) mrs (fst (shr mrs e n)).
Proof.
  intros Hm. destruct n as [|p|p]; simpl.
  - split; [lia|]. unfold shr_spec. rewrite Z.div_1_r, Z.mod_1_r. tauto.
  - split; [reflexivity|]. apply iter_pos_shr_1_spec, Hm.
  - split; [lia|]. unfold shr_spec. rewrite Z.div_1_r, Z.mod_1_r. tauto.
Qed.

Lemma fexp64_eq (e : Z) : fexp prec64 emax64 e = Z.max (e - 53) (-1074).
Proof. reflexivity. Qed.

Lemma shr_fexp_spec (mx ex : Z) (lx : location) : 0 <= mx ->
  let K := Z.max (fexp prec64 emax64 (Zdigits2 mx + ex) - ex) 0 in
  let '(mrs, e') := shr_fexp prec64 emax64 mx ex lx in
  e' = ex + K /\ shr_m mrs = mx / 2 ^ K
  /\ (loc_of_shr_record mrs = loc_Exact <-> mx mod 2 ^ K = 0 /\ lx = loc_Exact).
Proof.
  intros Hm K. unfold shr_fexp.
  destruct (shr_spec_gen (shr_record_of_loc mx lx) ex (fexp prec64 emax64 (Zdigits2 mx + ex) - ex))
    as [H1 [H2 H3]]; [rewrite shr_record_of_loc_m; exact Hm|].
  destruct (shr _ _ _) as [mrs e']. simpl in *.
  rewrite shr_record_of_loc_m in H2, H3. rewrite shr_record_of_loc_exact in H3.
  rewrite loc_of_shr_record_exact. fold K in H1, H2, H3. auto.
Qed.

(* digits *)
Lemma digits2_pos_spec (p : positive) :
  2 ^ (Zpos (digits2_pos p) - 1) <= Zpos p < 2 ^ Zpos (digits2_pos p).
Proof.
  induction p as [p IH|p IH|]; [| |simpl; lia];
    cbn [digits2_pos]; rewrite ?(Pos2Z.inj_xI p), ?(Pos2Z.inj_xO p), Pos2Z.inj_succ;
    assert (Hd : 1 <= Zpos (digits2_pos p)) by lia;
    revert IH Hd; generalize (Zpos (digits2_pos p)); intros d IH Hd;
    replace (Z.succ d - 1) with d by lia;
    rewrite Z.pow_succ_r by lia;
    (assert (E : 2 ^ d = 2 * 2 ^ (d - 1))
      by (rewrite <- Z.pow_succ_r by lia; f_equal; lia));
    lia.
Qed.

Lemma Zdigits2_spec (m : Z) : 0 < m -> 2 ^ (Zdigits2 m - 1) <= m < 2 ^ Zdigits2 m.
Proof. destruct m as [|p|p]; try lia. intros _. apply digits2_pos_spec. Qed.

Lemma Zdigits2_nonneg (m : Z) : 0 <= Zdigits2 m.
Proof. destruct m; simpl; lia. Qed.

Lemma Zdigits2_ge (m k : Z) : 0 <= k -> 2 ^ k <= m -> k + 1 <= Zdigits2 m.
Proof.
  intros Hk Hm. assert (Hp : 0 < 2 ^ k) by (apply Z.pow_pos_nonneg; lia).
  destruct (Zdigits2_spec m ltac:(lia)) as [_ H2].
  assert (k < Zdigits2 m); [|lia].
  apply (Z.pow_lt_mono_r_iff 2); [lia|apply Zdigits2_nonneg|lia].
Qed.

Lemma round_nearest_even_cases (m : Z) (l : location) :
  round_nearest_even m l = m \/ (l <> loc_Exact /\ round_nearest_even m l = m + 1).
Proof.
  destruct l as [|[| |]]; simpl; auto; try (right; split; [discriminate|reflexivity]).
  destruct (Z.even m); auto. right; split; [discriminate|reflexivity].
Qed.

Lemma shift_down_le (m e K : Z) : 0 <= K ->
  (inject_Z (m / 2 ^ K) * pow2Q (e + K) <= inject_Z m * pow2Q e)%Q.
Proof.
  intros HK. rewrite (pow2Q_le _ _ _ _ e) by lia.
  replace (e + K - e) with K by lia. rewrite Z.sub_diag, Z.pow_0_r, Z.mul_1_r, Z.mul_comm.
  apply Z.mul_div_le. apply Z.pow_pos_nonneg; lia.
Qed.

Lemma pow2Q_ge_1 (m e : Z) : 1 <= m -> 0 <= e ->
  (inject_Z (2 ^ e) <= inject_Z m * pow2Q e)%Q.
Proof.
  intros Hm He. rewrite (inject_Z_pow2Q_0 (2 ^ e)), (pow2Q_le _ _ _ _ 0) by lia.
  rewrite !Z.sub_0_r, Z.pow_0_r. nia.
Qed.

Lemma round_aux_le (mx ex : Z) (lx : location) (v : Q) (Fm : Z) :
  0 <= mx -> 0 < Fm < 2 ^ 53 ->
  (inject_Z mx * pow2Q ex <= v)%Q ->
  (lx <> loc_Exact -> (inject_Z mx * pow2Q ex < v)%Q) ->
  (lx <> loc_Exact -> ex <= fexp prec64 emax64 (Zdigits2 mx + ex)) ->
  (v <= inject_Z Fm)%Q ->
  match binary_round_aux prec64 emax64 false mx ex lx with
  | S754_zero false => True
  | S754_finite false m e => (inject_Z (Zpos m) * pow2Q e <= inject_Z Fm)%Q
  | _ => False
  end.
Proof.
  intros Hmx HFm Hv1 Hv2 Hex HvF.
  unfold binary_round_aux.
  pose proof (shr_fexp_spec mx ex lx Hmx) as H1. cbv zeta in H1.
  destruct (shr_fexp prec64 emax64 mx ex lx) as [mrs1 E] eqn:Hs1.
  set (K := Z.max (fexp prec64 emax64 (Zdigits2 mx + ex) - ex) 0) in H1.
  destruct H1 as [HE [Hm1 Hloc1]].
  set (m1 := shr_m mrs1) in *.
  set (l1 := loc_of_shr_record mrs1) in *.
  assert (HK : 0 < 2 ^ K) by (apply Z.pow_pos_nonneg; lia).
  assert (Hm1pos : 0 <= m1) by (rewrite Hm1; apply Z.div_pos; lia).
  assert (Hb1 : (inject_Z m1 * pow2Q E <= inject_Z mx * pow2Q ex)%Q).
  { rewrite HE, Hm1. apply shift_down_le. lia. }
  set (M := round_nearest_even m1 l1).
  assert (HM : 0 <= M /\ (inject_Z M * pow2Q E <= inject_Z Fm)%Q).
  { destruct (round_nearest_even_cases m1 l1) as [Heq|[Hl Heq]]; fold M in Heq; rewrite Heq.
    - split; [lia|]. eapply Qle_trans; [exact Hb1|]. eapply Qle_trans; eassumption.
    - assert (Hinex : lx <> loc_Exact \/ mx mod 2 ^ K <> 0).
      { destruct (Z.eq_dec (mx mod 2 ^ K) 0); [left|right; assumption].
        intros Hlx. apply Hl, Hloc1. auto. }
      assert (HEf : E = fexp prec64 emax64 (Zdigits2 mx + ex)).
      { destruct Hinex as [Hlx|Hmod].
        - specialize (Hex Hlx). unfold K in HE. lia.
        - assert (0 < K).
          { destruct (Z.eq_dec K 0) as [H0|H0]; [|unfold K in *; lia].
            rewrite H0, Z.pow_0_r, Z.mod_1_r in Hmod. congruence. }
          unfold K in *; lia. }
      assert (Hs : (inject_Z m1 * pow2Q E < v)%Q).
      { destruct Hinex as [Hlx|Hmod].
        - eapply Qle_lt_trans; [exact Hb1|]. apply Hv2, Hlx.
        - eapply Qlt_le_trans; [|exact Hv1].
          rewrite (pow2Q_lt _ _ _ _ ex) by lia. rewrite HE, Hm1.
          replace (ex + K - ex) with K by lia. rewrite Z.sub_diag, Z.pow_0_r, Z.mul_1_r.
          pose proof (Z.div_mod mx (2 ^ K) ltac:(lia)).
          pose proof (Z.mod_pos_bound mx (2 ^ K) HK). lia. }
      assert (HE0 : E <= 0).
      { rewrite HEf, fexp64_eq.
        destruct (Z.eq_dec mx 0) as [H0|H0].
        - assert (Hlx : lx <> loc_Exact).
          { destruct Hinex as [Hlx|Hmod]; [exact Hlx|]. subst mx. rewrite Z.mod_0_l in Hmod by lia.
            congruence. }
          specialize (Hex Hlx). rewrite fexp64_eq in Hex. subst mx. simpl in Hex |- *. lia.
        - destruct (Zdigits2_spec mx ltac:(lia)) as [Hd _].
          assert (Hd1 : 1 <= Zdigits2 mx) by (destruct mx; simpl in *; lia).
          destruct (Z.le_gt_cases (Zdigits2 mx + ex) 53) as [Hle|Hgt]; [lia|exfalso].
          assert (Hlow : (inject_Z 1 * pow2Q (Zdigits2 mx - 1 + ex) <= inject_Z Fm * pow2Q 0)%Q).
          { rewrite <- inject_Z_pow2Q_0.
            eapply Qle_trans; [|exact HvF]. eapply Qle_trans; [|exact Hv1].
            rewrite (pow2Q_le _ _ _ _ ex) by lia.
            replace (Zdigits2 mx - 1 + ex - ex) with (Zdigits2 mx - 1) by lia.
            rewrite Z.sub_diag, Z.pow_0_r. lia. }
          rewrite (pow2Q_le _ _ _ _ 0) in Hlow by lia.
          rewrite !Z.sub_0_r, Z.pow_0_r in Hlow.
          assert (2 ^ 53 <= 2 ^ (Zdigits2 mx - 1 + ex)) by (apply Z.pow_le_mono_r; lia).
          lia. }
      split; [lia|].
      assert (Hs' : (inject_Z m1 * pow2Q E < inject_Z Fm * pow2Q 0)%Q).
      { rewrite <- inject_Z_pow2Q_0. eapply Qlt_le_trans; eassumption. }
      rewrite (pow2Q_lt _ _ _ _ E) in Hs' by lia.
      rewrite (inject_Z_pow2Q_0 Fm), (pow2Q_le _ _ _ _ E) by lia.
      rewrite Z.sub_diag, Z.pow_0_r in *. lia. }
  destruct HM as [HM0 HMF].
  pose proof (shr_fexp_spec M E loc_Exact HM0) as H2. cbv zeta in H2.
  destruct (shr_fexp prec64 emax64 M E loc_Exact) as [mrs2 E2] eqn:Hs2.
  set (K2 := Z.max (fexp prec64 emax64 (Zdigits2 M + E) - E) 0) in H2.
  destruct H2 as [HE2 [Hm2 _]].
  assert (HK2 : 0 < 2 ^ K2) by (apply Z.pow_pos_nonneg; lia).
  assert (Hb2 : (inject_Z (shr_m mrs2) * pow2Q E2 <= inject_Z Fm)%Q).
  { eapply Qle_trans; [|exact HMF]. rewrite HE2, Hm2. apply shift_down_le. lia. }
  assert (Hm2pos : 0 <= shr_m mrs2) by (rewrite Hm2; apply Z.div_pos; lia).
  destruct (shr_m mrs2) as [|p|p]; [exact I| |lia].
  destruct (Z.leb_spec E2 (emax64 - prec64)) as [Hle|Hgt]; [exact Hb2|].
  exfalso. unfold emax64, prec64 in Hgt.
  assert (Hge := pow2Q_ge_1 (Zpos p) E2 ltac:(lia) ltac:(lia)).
  assert (H53 : (inject_Z (2 ^ E2) <= inject_Z Fm)%Q) by (eapply Qle_trans; eassumption).
  rewrite <- Zle_Qle in H53.
  assert (2 ^ 53 <= 2 ^ E2) by (apply Z.pow_le_mono_r; lia).
  lia.
Qed.

Lemma new_location_exact (n r : Z) : r = 0 -> new_location n r = loc_Exact.
Proof.
  intros ->. unfold new_location, new_location_even, new_location_odd.
  destruct (Z.even n); reflexivity.
Qed.

Lemma fexp_mono (x y : Z) : x <= y -> fexp prec64 emax64 x <= fexp prec64 emax64 y.
Proof. rewrite !fexp64_eq. lia. Qed.

Lemma div_core_spec (a b : positive) :
  let '(q, e', l) := SFdiv_core_binary prec64 emax64 (Zpos a) 0 (Zpos b) 0 in
  0 <= q
  /\ (inject_Z q * pow2Q e' * inject_Z (Zpos b) <= inject_Z (Zpos a))%Q
  /\ (l <> loc_Exact -> (inject_Z q * pow2Q e' * inject_Z (Zpos b) < inject_Z (Zpos a))%Q)
  /\ e' <= fexp prec64 emax64 (Zdigits2 q + e').
Proof.
  unfold SFdiv_core_binary.
  set (d1 := Zdigits2 (Zpos a)). set (d2 := Zdigits2 (Zpos b)).
  set (e' := Z.min (fexp prec64 emax64 (d1 + 0 - (d2 + 0))) (0 - 0)).
  assert (He' : e' <= 0) by (unfold e'; lia).
  assert (He'f : e' <= fexp prec64 emax64 (d1 - d2)).
  { unfold e'. replace (d1 + 0 - (d2 + 0)) with (d1 - d2) by lia. lia. }
  set (m' := match 0 - 0 - e' with Zpos _ => Z.shiftl (Zpos a) (0 - 0 - e') | Z0 => Zpos a | Zneg _ => 0 end).
  assert (Hm' : m' = Zpos a * 2 ^ (- e')).
  { unfold m'. replace (0 - 0 - e') with (- e') by lia.
    destruct (- e') eqn:Hs; [lia| |lia]. rewrite Z.shiftl_mul_pow2 by lia. reflexivity. }
  clearbody m'.
  destruct (Z.div_eucl m' (Zpos b)) as [q r] eqn:Hdiv.
  assert (Hq : q = m' / Zpos b) by (unfold Z.div; rewrite Hdiv; reflexivity).
  assert (Hr : r = m' mod Zpos b) by (unfold Z.modulo; rewrite Hdiv; reflexivity).
  clear Hdiv.
  assert (Hpe : 0 < 2 ^ (- e')) by (apply Z.pow_pos_nonneg; lia).
  assert (Hm'pos : 0 < m') by (rewrite Hm'; nia).
  pose proof (Z.div_mod m' (Zpos b) ltac:(lia)) as Hdm.
  pose proof (Z.mod_pos_bound m' (Zpos b) ltac:(lia)) as Hmb.
  rewrite <- Hq, <- Hr in Hdm. rewrite <- Hr in Hmb.
  assert (Hq0 : 0 <= q) by (rewrite Hq; apply Z.div_pos; lia).
  assert (Hconv : forall x : Z, (inject_Z q * pow2Q e' * inject_Z (Zpos b) == inject_Z (q * Zpos b) * pow2Q e')%Q)
    by (intros; rewrite inject_Z_mult; ring).
  split; [exact Hq0|]. split; [|split].
  - rewrite (Hconv 0), (inject_Z_pow2Q_0 (Zpos a)), (pow2Q_le _ _ _ _ e') by lia.
    rewrite Z.sub_diag, Z.pow_0_r, Z.sub_0_l. lia.
  - intros Hl. assert (r <> 0) by (intros H0; apply Hl, new_location_exact, H0).
    rewrite (Hconv 0), (inject_Z_pow2Q_0 (Zpos a)), (pow2Q_lt _ _ _ _ e') by lia.
    rewrite Z.sub_diag, Z.pow_0_r, Z.sub_0_l. lia.
  - eapply Z.le_trans; [exact He'f|]. apply fexp_mono.
    destruct (Z.le_gt_cases (d1 - d2 - e') 0) as [Hle|Hgt].
    + pose proof (Zdigits2_nonneg q). lia.
    + set (k := d1 - 1 - d2 - e').
      destruct (Zdigits2_spec (Zpos a) ltac:(lia)) as [Ha _]. fold d1 in Ha.
      destruct (Zdigits2_spec (Zpos b) ltac:(lia)) as [_ Hb]. fold d2 in Hb.
      assert (Hd1 : 1 <= d1) by (unfold d1; simpl; lia).
      assert (Hd2 : 1 <= d2) by (unfold d2; simpl; lia).
      assert (Hk : 2 ^ k <= q).
      { rewrite Hq. apply Z.div_le_lower_bound; [lia|].
        assert (E : 2 ^ (d1 - 1) * 2 ^ (- e') = 2 ^ k * 2 ^ d2).
        { rewrite <- !Z.pow_add_r by lia. f_equal. unfold k. lia. }
        assert (0 < 2 ^ k) by (apply Z.pow_pos_nonneg; lia).
        rewrite Hm'. nia. }
      pose proof (Zdigits2_ge q k ltac:(unfold k; lia) Hk). unfold k in *. lia.
Qed.

Lemma SFdiv_pos_le (a b : positive) (Fm : Z) :
  0 < Fm < 2 ^ 53 -> Zpos a <= Fm * Zpos b ->
  match SFdiv prec64 emax64 (S754_finite false a 0) (S754_finite false b 0) with
  | S754_zero false => True
  | S754_finite false m e => (inject_Z (Zpos m) * pow2Q e <= inject_Z Fm)%Q
  | _ => False
  end.
Proof.
  intros HF Hab. unfold SFdiv. cbn [xorb].
  pose proof (div_core_spec a b) as H.
  destruct (SFdiv_core_binary prec64 emax64 (Zpos a) 0 (Zpos b) 0) as [[q e'] l].
  destruct H as [Hq [H1 [H2 H3]]].
  assert (Hb : (0 < inject_Z (Zpos b))%Q) by (unfold Qlt; simpl; lia).
  apply (round_aux_le q e' l (inject_Z (Zpos a) / inject_Z (Zpos b)) Fm Hq HF).
  - apply Qle_shift_div_l; assumption.
  - intros Hl. apply Qlt_shift_div_l; auto.
  - intros _. exact H3.
  - apply Qle_shift_div_r; [exact Hb|]. rewrite <- inject_Z_mult, <- Zle_Qle. exact Hab.
Qed.

Lemma float_100_value : (inject_Z 7036874417766400 * pow2Q (-46) == 100)%Q.
Proof. reflexivity. Qed.

Lemma SFmul_100_le (m : positive) (e : Z) :
  (inject_Z (Zpos m) * pow2Q e <= 1)%Q ->
  match SFmul prec64 emax64 (S754_finite false m e) float_100 with
  | S754_zero false => True
  | S754_finite false m' e' => (inject_Z (Zpos m') * pow2Q e' <= 100)%Q
  | _ => False
  end.
Proof.
  intros Hx. unfold SFmul, float_100. cbn [xorb].
  apply (round_aux_le _ _ _ (inject_Z (Zpos (m * 7036874417766400)) * pow2Q (e + -46)) 100);
    [lia|lia|apply Qle_refl|intros H; exfalso; apply H; reflexivity
    |intros H; exfalso; apply H; reflexivity|].
  rewrite Pos2Z.inj_mul, inject_Z_mult, pow2Q_plus.
  setoid_replace (inject_Z (Zpos m) * inject_Z (Zpos 7036874417766400) * (pow2Q e * pow2Q (-46)))%Q
    with ((inject_Z (Zpos m) * pow2Q e) * (inject_Z 7036874417766400 * pow2Q (-46)))%Q by ring.
  rewrite float_100_value.
  setoid_replace (inject_Z 100) with (1 * 100)%Q by reflexivity.
  apply Qmult_le_compat_r; [exact Hx|discriminate].
Qed.

Lemma round_half_even_div_le (n d N : Z) :
  0 < d -> 0 <= n -> n <= N * d -> 0 <= round_half_even_div n d <= N.
Proof.
  intros Hd Hn HN. unfold round_half_even_div.
  pose proof (Z.div_mod n d ltac:(lia)). pose proof (Z.mod_pos_bound n d Hd).
  assert (Hfl : n / d <= N) by (apply Z.div_le_upper_bound; lia).
  assert (Hfl0 : 0 <= n / d) by (apply Z.div_pos; lia).
  assert (Heq : n / d = N -> n mod d = 0) by (intros; nia).
  destruct (Z.ltb_spec (2 * (n mod d)) d); [lia|].
  destruct (Z.ltb_spec d (2 * (n mod d))).
  - destruct (Z.eq_dec (n / d) N); [specialize (Heq e); lia|lia].
  - destruct (Z.even (n / d)); [lia|].
    destruct (Z.eq_dec (n / d) N); [specialize (Heq e); lia|lia].
Qed.

Lemma SF_value_nonneg (m : positive) (e : Z) : (0 <= inject_Z (Zpos m) * pow2Q e)%Q.
Proof.
  apply Qmult_le_0_compat; [unfold Qle; simpl; lia|apply Qlt_le_weak, pow2Q_pos].
Qed.

Lemma py_round2_le (m : positive) (e : Z) :
  (inject_Z (Zpos m) * pow2Q e <= 100)%Q ->
  exists u q, py_round2 (S754_finite false m e) = Some u
              /\ SF_value u = Some q /\ (0 <= q <= 100)%Q.
Proof.
  intros Hx. unfold py_round2.
  set (k := if 0 <=? e then Zpos m * 100 * 2 ^ e
            else round_half_even_div (Zpos m * 100) (2 ^ (- e))).
  assert (Hk : 0 <= k <= 10000).
  { unfold k. destruct (Z.leb_spec 0 e).
    - rewrite (inject_Z_pow2Q_0 100), (pow2Q_le _ _ _ _ 0) in Hx by lia.
      rewrite Z.sub_0_r, Z.sub_diag, Z.pow_0_r in Hx.
      assert (0 < 2 ^ e) by (apply Z.pow_pos_nonneg; lia). nia.
    - rewrite (inject_Z_pow2Q_0 100), (pow2Q_le _ _ _ _ e) in Hx by lia.
      rewrite Z.sub_diag, Z.pow_0_r, Z.sub_0_l in Hx.
      apply round_half_even_div_le; [apply Z.pow_pos_nonneg; lia|lia|lia]. }
  clearbody k. destruct k as [|k'|k']; [| |lia].
  - exists (S754_zero false), 0%Q. split; [reflexivity|]. split; [reflexivity|].
    split; discriminate.
  - pose proof (SFdiv_pos_le k' 100 100 ltac:(lia) ltac:(lia)) as H.
    change (int_exact 100) with (S754_finite false 100 0).
    destruct (SFdiv prec64 emax64 (S754_finite false k' 0) (S754_finite false 100 0))
      as [[|]|[|]| |[|] m2 e2]; try contradiction.
    + exists (S754_zero false), 0%Q. split; [reflexivity|]. split; [reflexivity|].
      split; discriminate.
    + eexists _, _. split; [reflexivity|]. split; [reflexivity|].
      split; [apply SF_value_nonneg|exact H].
Qed.

Lemma calculate_utilization_float_bounds (t b : Z) :
  0 <= t <= b -> 0 < b ->
  exists u q, calculate_utilization_float t b = Some u
              /\ SF_value u = Some q /\ (0 <= q <= 100)%Q.
Proof.
  intros Ht Hb. unfold calculate_utilization_float, py_int_truediv.
  destruct (Z.eqb_spec b 0) as [|_]; [lia|].
  destruct b as [|b'|b']; try lia.
  destruct t as [|t'|t']; [|simpl int_exact|lia].
  - exists (S754_zero false), 0%Q. split; [reflexivity|]. split; [reflexivity|].
    split; discriminate.
  - pose proof (SFdiv_pos_le t' b' 1 ltac:(lia) ltac:(lia)) as H.
    destruct (SFdiv prec64 emax64 (S754_finite false t' 0) (S754_finite false b' 0))
      as [[|]|[|]| |[|] m e]; try contradiction.
    + exists (S754_zero false), 0%Q. split; [reflexivity|]. split; [reflexivity|].
      split; discriminate.
    + pose proof (SFmul_100_le m e H) as H2.
      destruct (SFmul prec64 emax64 (S754_finite false m e) float_100)
        as [[|]|[|]| |[|] m2 e2]; try contradiction.
      * exists (S754_zero false), 0%Q. split; [reflexivity|]. split; [reflexivity|].
        split; discriminate.
      * apply py_round2_le, H2.
Qed.

(** ** Utilization *)

Lemma generate_schedule_total_le_budget (heap : Heap) (owner : Owner) (date : Date) :
  let total := total_time_minutes (generate_schedule heap owner date) in
  (0 < available_time_minutes owner -> total <= available_time_minutes owner)
  /\ (available_time_minutes owner <= 0 -> total = 0).
Proof.
  cbv zeta. unfold generate_schedule. rewrite generate_schedule_total.
  destruct (generate_schedule_lists heap generate_reasoning owner date) as [[-> _]|[Hb [-> _]]].
  - cbn. lia.
  - set (available := sorted_desc (priority_key heap) (get_all_tasks owner)).
    destruct (sched_loop_budget heap generate_reasoning (available_time_minutes owner)
                (List.length available) (initial_state available (available_time_minutes owner)))
      as [H1 H2].
    + apply sorted_desc_sorted.
    + unfold budget_invariant. cbn. lia.
    + lia.
Qed.

Lemma generate_schedule_total_nonneg (heap : Heap) (owner : Owner) (date : Date) :
  (forall r, In r (get_all_tasks owner) -> 0 <= duration_minutes (heap r)) ->
  0 <= total_time_minutes (generate_schedule heap owner date).
Proof.
  intros Hnn. unfold generate_schedule. rewrite generate_schedule_total.
  apply sum_durations_nonneg, Forall_forall. intros st Hst.
  apply Hnn. eapply generate_schedule_scheduled_in. exact Hst.
Qed.

(** C5 (counterexample).  The stored percentage is a float: Python's
    [round] of the float [(total / budget) * 100], not the exact quotient
    rounded to two decimals, and it can leave [0, 100].  For 23 scheduled
    minutes of a 160-minute budget the exact value 14.375 rounds to
    14.38, but the float [23 / 160 * 100] lies just below 14.375 and the
    stored value is 14.37; a task of -5 minutes with a 30-minute budget
    gives -16.67. *)
Lemma utilization_counterexample :
  ~ (forall heap owner date,
       exists u, generate_utilization heap owner date = Some u
       /\ (available_time_minutes owner <> 0 ->
           u = float_of_hundredths
                 (Qnum (round2 (inject_Z (total_time_minutes (generate_schedule heap owner date))
                                / inject_Z (available_time_minutes owner) * 100))))
       /\ exists q, SF_value u = Some q /\ (0 <= q <= 100)%Q)
  /\ generate_utilization (heap_of tasks_23) owner_160 date0 = Some (float_of_hundredths 1437)
  /\ float_of_hundredths 1437 <> float_of_hundredths 1438
  /\ generate_utilization (heap_of tasks_negative) owner_negative date0
     = Some (float_of_hundredths (-1667)).
Proof.
  split; [|split; [|split]].
  - intros H. destruct (H (heap_of tasks_23) owner_160 date0) as [u [Hu [Heq _]]].
    specialize (Heq ltac:(discriminate)). subst u. vm_compute in Hu. discriminate Hu.
  - vm_compute. reflexivity.
  - vm_compute. discriminate.
  - vm_compute. reflexivity.
Qed.

(** C5.  The stored [utilization_percentage] is the binary64 float
    [round((total / budget) * 100, 2)] computed by
    [calculate_utilization_float]: [0.0] when the budget is 0, and
    otherwise (when there are tasks) that float for the scheduled total and
    the budget.  When every task has a non-negative duration it is a
    finite float whose value lies in [0, 100].  Budget 100 with one
    50-minute task gives exactly 50.0. *)
Theorem utilization_binary64 :
  (forall heap owner date, available_time_minutes owner = 0 ->
     generate_utilization heap owner date = Some (S754_zero false))
  /\ (forall heap owner date, get_all_tasks owner <> [] ->
     generate_utilization heap owner date
     = calculate_utilization_float (total_time_minutes (generate_schedule heap owner date))
                                   (available_time_minutes owner))
  /\ (forall heap owner date,
        (forall r, In r (get_all_tasks owner) -> 0 <= duration_minutes (heap r)) ->
        exists u q, generate_utilization heap owner date = Some u
                    /\ SF_value u = Some q /\ (0 <= q <= 100)%Q)
  /\ generate_utilization (heap_of tasks_fifty) owner_100 date0
     = Some (binary_normalize prec64 emax64 50 0 false).
Proof.
  split; [|split; [|split]].
  - intros heap owner date Hb. unfold generate_utilization, calculate_utilization_float.
    rewrite Hb. destruct (sorted_desc _ _); reflexivity.
  - intros heap owner date Hne. unfold generate_utilization.
    destruct (sorted_desc (priority_key heap) (get_all_tasks owner)) eqn:E; [|reflexivity].
    exfalso. apply Hne. apply Permutation_nil.
    rewrite <- E. apply sorted_desc_perm.
  - intros heap owner date Hnn. unfold generate_utilization.
    destruct (sorted_desc (priority_key heap) (get_all_tasks owner)).
    { exists (S754_zero false), 0%Q. split; [reflexivity|]. split; [reflexivity|].
      split; discriminate. }
    destruct (generate_schedule_total_le_budget heap owner date) as [Hle Hzero].
    pose proof (generate_schedule_total_nonneg heap owner date Hnn) as H0.
    set (t := total_time_minutes (generate_schedule heap owner date)) in *.
    set (b := available_time_minutes owner) in *.
    destruct (Z.lt_trichotomy b 0) as [Hb|[Hb|Hb]].
    + rewrite (Hzero ltac:(lia)). destruct b as [|p|p]; try lia.
      exists (S754_zero true), 0%Q. split; [reflexivity|]. split; [reflexivity|].
      split; discriminate.
    + rewrite Hb. exists (S754_zero false), 0%Q. split; [reflexivity|].
      split; [reflexivity|]. split; discriminate.
    + apply calculate_utilization_float_bounds; [specialize (Hle Hb)|]; lia.
  - vm_compute. reflexivity.
Qed.

Lemma utilization_binary64_witness :
  generate_utilization (heap_of tasks_budget40) owner_no_time date0 = Some (S754_zero false)
  /\ generate_utilization (heap_of tasks_fifty) owner_100 date0
     = calculate_utilization_float 50 100
  /\ (exists u q, generate_utilization (heap_of tasks_budget40) owner_budget40 date0 = Some u
                  /\ SF_value u = Some q /\ (0 <= q <= 100)%Q).
Proof.
  split; [|split].
  - apply (proj1 utilization_binary64). reflexivity.
  - apply (proj1 (proj2 utilization_binary64)). vm_compute. discriminate.
  - apply (proj1 (proj2 (proj2 utilization_binary64))).
    intros r Hr. vm_compute in Hr.
    destruct Hr as [<-|[<-|[<-|[]]]]; vm_compute; discriminate.
Defined.
